(** * The query-string filter compiler of gorm-orm ([BuildWhereClause])

    A shallow embedding of the [WhereClause] descriptor, of its fluent
    builder methods and of the query-string compiler [BuildWhereClause],
    together with the string primitives of Go's [strings] and [strconv]
    packages that the compiler calls.

    Conventions.
    - A Go [string] is a sequence of bytes: [string] of the Standard
      Library (a list of 8-bit [ascii]).
    - A Go [int] is a 64-bit signed integer, carried as a [Z].
    - A Go [map[string][]string] is an [option (gmap string (list string))]:
      [None] is the nil map, [Some m] an allocated one.
    - A Go call that returns [(value, error)] or may panic returns an
      [outcome]. *)

From Stdlib Require Import ZArith Lia Ascii String List.
From stdpp Require Import base option list strings gmap.

Import ListNotations.
#[local] Arguments String.append !s1 s2 : simpl nomatch.
Local Open Scope string_scope.
Local Open Scope Z_scope.

(* ===================================================================== *)
(** ** Package [strings] *)
(* ===================================================================== *)

Module strings.

(** [len(s)] as a natural number. *)
Definition len (s : string) : nat := String.length s.

(** [s[:n]] *)
Fixpoint sliceTo (n : nat) (s : string) : string :=
  match n, s with
  | S n', String c s' => String c (sliceTo n' s')
  | _, _ => EmptyString
  end.

(** [s[n:]] *)
Fixpoint sliceFrom (n : nat) (s : string) : string :=
  match n, s with
  | S n', String _ s' => sliceFrom n' s'
  | _, _ => s
  end.

(** [strings.HasPrefix(s, prefix)] *)
Fixpoint HasPrefix (s prefix : string) {struct prefix} : bool :=
  match prefix, s with
  | EmptyString, _ => true
  | String p prefix', String c s' =>
      if Ascii.eqb c p then HasPrefix s' prefix' else false
  | String _ _, EmptyString => false
  end.

(** [strings.TrimPrefix(s, prefix)] *)
Definition TrimPrefix (s prefix : string) : string :=
  if HasPrefix s prefix then sliceFrom (len prefix) s else s.

(** [strings.Index(s, substr)]: the byte offset of the first occurrence
    of [substr] in [s]; Go's [-1] is [None]. *)
Fixpoint Index (s substr : string) : option nat :=
  if HasPrefix s substr then Some O
  else match s with
       | EmptyString => None
       | String _ s' =>
           match Index s' substr with
           | Some m => Some (S m)
           | None => None
           end
       end.

(** The loop of [strings.Count(s, substr)] for a non-empty [substr]:
    [for { i := Index(s, substr); if i == -1 { return n }; n++;
    s = s[i+len(substr):] }].  Every round removes at least one byte,
    so [len s] rounds are enough (lemma [countLoop_enough]). *)
Fixpoint countLoop (rounds : nat) (s substr : string) : nat :=
  match rounds with
  | O => O
  | S r =>
      match Index s substr with
      | None => O
      | Some i => S (countLoop r (sliceFrom (i + len substr) s) substr)
      end
  end.

Definition Count (s substr : string) : nat := countLoop (len s) s substr.

(** The loop of [genSplit]:
    [for i < n { m := Index(s, sep); if m < 0 { break };
    a[i] = s[:m]; s = s[m+len(sep):]; i++ }; a[i] = s]. *)
Fixpoint splitLoop (n : nat) (s sep : string) : list string :=
  match n with
  | O => [s]
  | S n' =>
      match Index s sep with
      | None => [s]
      | Some m => sliceTo m s :: splitLoop n' (sliceFrom (m + len sep) s) sep
      end
  end.

(** [genSplit(s, sep, 0, n)] for a non-empty separator (the source only
    ever splits on ["&"], ["|"], ["="] and ["__"]; the [explode] branch
    taken for [sep == ""] is not part of the model). *)
Definition genSplit (s sep : string) (n : Z) : list string :=
  if n =? 0 then []
  else
    let n := if n <? 0 then Z.of_nat (Count s sep) + 1 else n in
    let n := if Z.of_nat (len s) + 1 <? n then Z.of_nat (len s) + 1 else n in
    splitLoop (Z.to_nat (n - 1)) s sep.

(** [strings.Split(s, sep)] *)
Definition Split (s sep : string) : list string := genSplit s sep (-1).

(** [strings.SplitN(s, sep, n)] *)
Definition SplitN (s sep : string) (n : Z) : list string := genSplit s sep n.

(** [strings.Join(elems, sep)] *)
Fixpoint Join (elems : list string) (sep : string) : string :=
  match elems with
  | [] => ""
  | [e] => e
  | e :: rest => e ++ sep ++ Join rest sep
  end.

End strings.

(* ===================================================================== *)
(** ** Package [strconv]: [Atoi] on a 64-bit platform *)
(* ===================================================================== *)

Module strconv.

Inductive errKind : Type := ErrSyntax | ErrRange.

(** [*strconv.NumError] *)
Record NumError : Type := mkNumError {
  Func : string;
  Num : string;
  Err : errKind
}.

Definition intSize : Z := 64.
Definition maxUint64 : Z := 2 ^ 64 - 1.

Definition byteVal (c : ascii) : Z := Z.of_N (N_of_ascii c).

Definition syntaxError (fn str : string) : NumError := mkNumError fn str ErrSyntax.
Definition rangeError (fn str : string) : NumError := mkNumError fn str ErrRange.

(** The digit loop of the fast path of [Atoi]:
    [ch -= '0'; if ch > 9 { syntax error }; n = n*10 + int(ch)],
    where [ch] is a byte, so the subtraction wraps modulo 256. *)
Fixpoint atoiFastLoop (s : string) (n : Z) : option Z :=
  match s with
  | EmptyString => Some n
  | String ch s' =>
      let ch := (byteVal ch - 48) mod 256 in
      if 9 <? ch then None else atoiFastLoop s' (n * 10 + ch)
  end.

Definition isSign (c : ascii) : bool :=
  Ascii.eqb c "-"%char || Ascii.eqb c "+"%char.

(** The digit loop of [ParseUint(s, 10, 64)].  The result is the pair
    that Go returns: the value and the kind of error, if any.  A byte
    that is no decimal digit is a syntax error (a letter is a digit of
    value at least 10, which is not below the base). *)
Fixpoint parseUintLoop (s : string) (n : Z) : Z * option errKind :=
  match s with
  | EmptyString => (n, None)
  | String c s' =>
      let b := byteVal c in
      if (48 <=? b) && (b <=? 57) then
        let d := b - 48 in
        if maxUint64 / 10 + 1 <=? n then (maxUint64, Some ErrRange)
        else
          let n10 := (n * 10) mod 2 ^ 64 in
          let n1 := (n10 + d) mod 2 ^ 64 in
          if (n1 <? n10) || (maxUint64 <? n1) then (maxUint64, Some ErrRange)
          else parseUintLoop s' n1
      else (0, Some ErrSyntax)
  end.

(** [ParseUint(s, 10, 0)] *)
Definition ParseUint (s : string) : Z * option errKind :=
  match s with
  | EmptyString => (0, Some ErrSyntax)
  | _ => parseUintLoop s 0
  end.

(** [ParseInt(s, 10, 0)]; the error carries the whole input [s0]. *)
Definition ParseInt (s0 : string) : Z + NumError :=
  match s0 with
  | EmptyString => inr (syntaxError "ParseInt" s0)
  | String c rest =>
      let neg := Ascii.eqb c "-"%char in
      let s := if isSign c then rest else s0 in
      let cutoff := 2 ^ (intSize - 1) in
      match ParseUint s with
      | (_, Some ErrSyntax) => inr (syntaxError "ParseInt" s0)
      | (un, _) =>
          if negb neg && (cutoff <=? un) then inr (rangeError "ParseInt" s0)
          else if neg && (cutoff <? un) then inr (rangeError "ParseInt" s0)
          else inl (if neg then - un else un)
      end
  end.

(** [strconv.Atoi(s)] *)
Definition Atoi (s0 : string) : Z + NumError :=
  let sLen := strings.len s0 in
  if (0 <? sLen)%nat && (sLen <? 19)%nat then
    match s0 with
    | EmptyString => inr (syntaxError "Atoi" s0)
    | String c rest =>
        let s := if isSign c then rest else s0 in
        if (strings.len s <? 1)%nat then inr (syntaxError "Atoi" s0)
        else
          match atoiFastLoop s 0 with
          | None => inr (syntaxError "Atoi" s0)
          | Some n => inl (if Ascii.eqb c "-"%char then - n else n)
          end
    end
  else
    match ParseInt s0 with
    | inl i64 => inl i64
    | inr nerr => inr (mkNumError "Atoi" (Num nerr) (Err nerr))
    end.

End strconv.

(* ===================================================================== *)
(** ** The descriptor and its builder *)
(* ===================================================================== *)

(** The values stored behind [interface{}] in [Args]: the compiler stores
    strings, [LengthGreaterThan] an [int]; [AnyBool] stands for the
    booleans of the documented [IsNot("archived", true)]. *)
Inductive any : Type :=
| AnyString (s : string)
| AnyInt (n : Z)
| AnyBool (b : bool).

Record WhereClause : Type := mkWhereClause {
  Query : string;
  Args : list any;
  Preload : list string;
  Limit : Z;
  Offset : Z;
  OrderByASC : string;
  OrderByDESC : string;
  Page : Z;
  PageSize : Z;
  Aggregates : option (gmap string (list string))
}.

(** Field assignments [w.F = v]. *)
Definition setQuery (v : string) (w : WhereClause) : WhereClause :=
  mkWhereClause v (Args w) (Preload w) (Limit w) (Offset w) (OrderByASC w)
    (OrderByDESC w) (Page w) (PageSize w) (Aggregates w).
Definition setArgs (v : list any) (w : WhereClause) : WhereClause :=
  mkWhereClause (Query w) v (Preload w) (Limit w) (Offset w) (OrderByASC w)
    (OrderByDESC w) (Page w) (PageSize w) (Aggregates w).
Definition setPreload (v : list string) (w : WhereClause) : WhereClause :=
  mkWhereClause (Query w) (Args w) v (Limit w) (Offset w) (OrderByASC w)
    (OrderByDESC w) (Page w) (PageSize w) (Aggregates w).
Definition setLimit (v : Z) (w : WhereClause) : WhereClause :=
  mkWhereClause (Query w) (Args w) (Preload w) v (Offset w) (OrderByASC w)
    (OrderByDESC w) (Page w) (PageSize w) (Aggregates w).
Definition setOffset (v : Z) (w : WhereClause) : WhereClause :=
  mkWhereClause (Query w) (Args w) (Preload w) (Limit w) v (OrderByASC w)
    (OrderByDESC w) (Page w) (PageSize w) (Aggregates w).
Definition setOrderByASC (v : string) (w : WhereClause) : WhereClause :=
  mkWhereClause (Query w) (Args w) (Preload w) (Limit w) (Offset w) v
    (OrderByDESC w) (Page w) (PageSize w) (Aggregates w).
Definition setOrderByDESC (v : string) (w : WhereClause) : WhereClause :=
  mkWhereClause (Query w) (Args w) (Preload w) (Limit w) (Offset w)
    (OrderByASC w) v (Page w) (PageSize w) (Aggregates w).
Definition setPage (v : Z) (w : WhereClause) : WhereClause :=
  mkWhereClause (Query w) (Args w) (Preload w) (Limit w) (Offset w)
    (OrderByASC w) (OrderByDESC w) v (PageSize w) (Aggregates w).
Definition setPageSize (v : Z) (w : WhereClause) : WhereClause :=
  mkWhereClause (Query w) (Args w) (Preload w) (Limit w) (Offset w)
    (OrderByASC w) (OrderByDESC w) (Page w) v (Aggregates w).
Definition setAggregates (v : option (gmap string (list string)))
    (w : WhereClause) : WhereClause :=
  mkWhereClause (Query w) (Args w) (Preload w) (Limit w) (Offset w)
    (OrderByASC w) (OrderByDESC w) (Page w) (PageSize w) v.

(** The zero value [WhereClause{}]: empty strings, nil slices, zero
    integers and a nil map. *)
Definition zeroWhereClause : WhereClause :=
  mkWhereClause "" [] [] 0 0 "" "" 0 0 None.

(** The builder methods mutate the receiver and return it; a method is a
    function from the descriptor before the call to the descriptor after. *)

Definition AddPreload (w : WhereClause) (preload : string) : WhereClause :=
  setPreload (Preload w ++ [preload]) w.

Definition NewWhereClause : WhereClause := zeroWhereClause.

Definition NewWhere (query : string) (args : list any) (limit offset : Z)
    : WhereClause :=
  setOffset offset (setLimit limit (setArgs args (setQuery query zeroWhereClause))).

Definition Where (w : WhereClause) (query : string) (args : list any)
    : WhereClause :=
  setArgs args (setQuery query w).

Definition AddAnd (w : WhereClause) : WhereClause :=
  if negb (String.eqb (Query w) "") then setQuery (Query w ++ " AND ") w else w.

Definition AddOr (w : WhereClause) : WhereClause :=
  if negb (String.eqb (Query w) "") then setQuery (Query w ++ " OR ") w else w.

Definition And (w : WhereClause) (query : string) (args : list any)
    : WhereClause :=
  setArgs (Args w ++ args) (setQuery (Query w ++ (" AND " ++ query)) w).

Definition Or (w : WhereClause) (query : string) (args : list any)
    : WhereClause :=
  setArgs (Args w ++ args) (setQuery (Query w ++ (" OR " ++ query)) w).

Definition LimitClause (w : WhereClause) (limit : Z) : WhereClause :=
  setLimit limit w.

Definition OffsetClause (w : WhereClause) (offset : Z) : WhereClause :=
  setOffset offset w.

(** The comparison helpers all have the shape
    [w.Query += fmt.Sprintf("%s <op> ?", field); w.Args = append(w.Args, value)]. *)
Definition appendCondition (w : WhereClause) (fragment : string)
    (values : list any) : WhereClause :=
  setArgs (Args w ++ values) (setQuery (Query w ++ fragment) w).

Definition Like (w : WhereClause) (field value : string) : WhereClause :=
  appendCondition w (field ++ " LIKE ?") [AnyString value].
Definition Is (w : WhereClause) (field : string) (value : any) : WhereClause :=
  appendCondition w (field ++ " IS ?") [value].
Definition IsNot (w : WhereClause) (field : string) (value : any) : WhereClause :=
  appendCondition w (field ++ " IS NOT ?") [value].
Definition GreaterThan (w : WhereClause) (field : string) (value : any) : WhereClause :=
  appendCondition w (field ++ " > ?") [value].
Definition LessThanOrEqual (w : WhereClause) (field : string) (value : any) : WhereClause :=
  appendCondition w (field ++ " <= ?") [value].
Definition GreaterThanOrEqual (w : WhereClause) (field : string) (value : any) : WhereClause :=
  appendCondition w (field ++ " >= ?") [value].
Definition NotEqual (w : WhereClause) (field : string) (value : any) : WhereClause :=
  appendCondition w (field ++ " != ?") [value].
Definition Equal (w : WhereClause) (field : string) (value : any) : WhereClause :=
  appendCondition w (field ++ " = ?") [value].
Definition DateRange (w : WhereClause) (field : string) (startDate endDate : any)
    : WhereClause :=
  appendCondition w (field ++ " >= ? AND " ++ field ++ " <= ?") [startDate; endDate].
Definition LengthGreaterThan (w : WhereClause) (field : string) (length : Z)
    : WhereClause :=
  appendCondition w ("LENGTH(" ++ field ++ ") > ?") [AnyInt length].

(* ===================================================================== *)
(** ** The compiler [BuildWhereClause] *)
(* ===================================================================== *)

(** The only errors the compiler returns are those of [strconv.Atoi]. *)
Abbreviation error := strconv.NumError.

(** What a call does: return a value, return a non-nil [error], or panic. *)
Inductive outcome (A : Type) : Type :=
| Ok (a : A)
| Err (e : error)
| Panic (msg : string).
Arguments Ok {A} a.
Arguments Err {A} e.
Arguments Panic {A} msg.

(** Sequencing: an error or a panic ends the computation. *)
#[global] Instance outcome_bind : MBind outcome := fun A B k m =>
  match m with
  | Ok a => k a
  | Err e => Err e
  | Panic msg => Panic msg
  end.

(** [setPaginationField(wc, key, value)]: the descriptor after the call,
    or the error of [Atoi]. *)
Definition setPaginationField (wc : WhereClause) (key value : string)
    : outcome WhereClause :=
  match strconv.Atoi value with
  | inr err => Err err
  | inl val =>
      if String.eqb key "limit" then Ok (setLimit val wc)
      else if String.eqb key "offset" then Ok (setOffset val wc)
      else if String.eqb key "page" then Ok (setPage val wc)
      else if String.eqb key "pageSize" then Ok (setPageSize val wc)
      else Ok wc
  end.

(** The [switch fieldParts[1]] of [processCondition]. *)
Definition operatorOf (suffix : string) : string :=
  if String.eqb suffix "gt" then ">"
  else if String.eqb suffix "gte" then ">="
  else if String.eqb suffix "lt" then "<"
  else if String.eqb suffix "lte" then "<="
  else if String.eqb suffix "ne" then "!="
  else if String.eqb suffix "not" then "NOT"
  else "=".

(** [processCondition(condition)] returns the fragment, its arguments and
    an error, which is always nil. *)
Definition processCondition (condition : string)
    : string * list any * option error :=
  match strings.SplitN condition "=" 2 with
  | [key; value] =>
      let fieldParts := strings.SplitN key "__" 2 in
      let field := hd "" fieldParts in
      let operator :=
        match fieldParts with
        | [_; suffix] => operatorOf suffix
        | _ => "="
        end in
      (field ++ " " ++ operator ++ " ?", [AnyString value], None)
  | _ => ("", [], None)
  end.

(** The inner loop over [orConditions]; its state is [orConditionParts]
    and [whereClause.Args]. *)
Fixpoint orLoop (orConditions : list string) (orConditionParts : list string)
    (args : list any) : outcome (list string * list any) :=
  match orConditions with
  | [] => Ok (orConditionParts, args)
  | orCond :: rest =>
      match processCondition orCond with
      | (_, _, Some err) => Err err
      | (cond, a, None) =>
          if negb (String.eqb cond "")
          then orLoop rest (orConditionParts ++ [cond]) (args ++ a)
          else orLoop rest orConditionParts args
      end
  end.

(** Lines 216-236: the OR-group built from the pieces [orConditions]. *)
Definition orGroupOf (orConditions : list string) (w : WhereClause)
    : outcome WhereClause :=
  '(orConditionParts, args) ← orLoop orConditions [] (Args w);
  let w := setArgs args w in
  if (0 <? length orConditionParts)%nat then
    let groupQuery := "(" ++ strings.Join orConditionParts " OR " ++ ")" in
    let w := if negb (String.eqb (Query w) "")
             then setQuery (Query w ++ " AND ") w else w in
    Ok (setQuery (Query w ++ groupQuery) w)
  else Ok w.

(** Lines 214-236: a clause taken as an OR-group. *)
Definition orGroup (w : WhereClause) (andCond : string) : outcome WhereClause :=
  orGroupOf (strings.Split andCond "|") w.

(** Lines 196-212: the sort and pagination keys.  [None] when the [switch]
    is not entered or no case matches, so that control reaches the
    OR-group. *)
Definition sortOrPagination (w : WhereClause) (andCond : string)
    : option (outcome WhereClause) :=
  match strings.SplitN andCond "=" 2 with
  | [key; value] =>
      if String.eqb key "orderByASC" then Some (Ok (setOrderByASC value w))
      else if String.eqb key "orderByDESC" then Some (Ok (setOrderByDESC value w))
      else if String.eqb key "limit" || String.eqb key "offset"
              || String.eqb key "page" || String.eqb key "pageSize"
      then Some (setPaginationField w key value)
      else None
  | _ => None
  end.

(** Lines 176-236: the body of the loop below the aggregate test. *)
Definition clauseBody (w : WhereClause) (andCond : string) : outcome WhereClause :=
  if String.eqb andCond "" then Ok w
  else if strings.HasPrefix andCond "useData" then Ok w
  else if strings.HasPrefix andCond "useCache" then Ok w
  else if strings.HasPrefix andCond "with_" then
    let preloadValues := strings.TrimPrefix andCond "with_" in
    Ok (fold_left (fun w preloadDirective =>
                     setPreload (Preload w ++ [preloadDirective]) w)
                  (strings.Split preloadValues "|") w)
  else
    match sortOrPagination w andCond with
    | Some r => r
    | None => orGroup w andCond
    end.

(** [whereClause.Aggregates[k] = v]; Go panics when the map is nil. *)
Definition assignAggregate (w : WhereClause) (k : string) (v : list string)
    : outcome WhereClause :=
  match Aggregates w with
  | Some m => Ok (setAggregates (Some (<[k := v]> m)) w)
  | None => Panic "assignment to entry in nil map"
  end.

(** One iteration of [for _, andCond := range andConditions]. *)
Definition clauseStep (w : WhereClause) (andCond : string) : outcome WhereClause :=
  if strings.HasPrefix andCond "agg__" then
    match strings.SplitN andCond "=" 2 with
    | [aggFunction; fields] =>
        assignAggregate w (strings.TrimPrefix aggFunction "agg__")
          (strings.Split fields "|")
    | _ => clauseBody w andCond
    end
  else clauseBody w andCond.

Fixpoint rangeLoop (andConditions : list string) (w : WhereClause)
    : outcome WhereClause :=
  match andConditions with
  | [] => Ok w
  | andCond :: rest => w' ← clauseStep w andCond; rangeLoop rest w'
  end.

Definition BuildWhereClause (queryString : string) : outcome WhereClause :=
  rangeLoop (strings.Split queryString "&")
            (setAggregates (Some ∅) zeroWhereClause).

(* ===================================================================== *)
(** ** Vocabulary of the specification *)
(* ===================================================================== *)

(** The number of occurrences of the byte [c] in [s]; with [c = "?"] the
    number of placeholders of a predicate string. *)
Fixpoint countByte (c : ascii) (s : string) : nat :=
  match s with
  | EmptyString => O
  | String x s' => ((if Ascii.eqb x c then 1 else 0) + countByte c s')%nat
  end.

Definition placeholders (s : string) : nat := countByte "?"%char s.

(** The operator table as the specification words it: [gt] is [>], [gte]
    is [>=], [lt] is [<], [lte] is [<=], [ne] is [!=], [not] is the bare
    keyword [NOT]; an absent or unrecognized suffix is [=]. *)
Definition specOperatorTable : list (string * string) :=
  [("gt", ">"); ("gte", ">="); ("lt", "<"); ("lte", "<=");
   ("ne", "!="); ("not", "NOT")].

Definition specOperator (suffix : option string) : string :=
  match suffix with
  | None => "="
  | Some sfx =>
      match find (fun entry => String.eqb (fst entry) sfx) specOperatorTable with
      | Some (_, op) => op
      | None => "="
      end
  end.

(** The key of a condition: [field], or [field__suffix]. *)
Definition conditionKey (field : string) (suffix : option string) : string :=
  match suffix with
  | None => field
  | Some sfx => field ++ "__" ++ sfx
  end.

(** The descriptor a fresh compilation starts from. *)
Definition initialWhereClause : WhereClause :=
  setAggregates (Some ∅) zeroWhereClause.

Definition sortKeys : list string := ["orderByASC"; "orderByDESC"].
Definition paginationKeys : list string := ["limit"; "offset"; "page"; "pageSize"].

(** The clause begins with [key=] for one of the six sort and pagination
    keys: the text before its first [=] is that key. *)
Definition beginsWithDirectiveKey (c : string) : bool :=
  existsb (fun key => strings.HasPrefix c (key ++ "="))
          (sortKeys ++ paginationKeys)%list.

(** The clause is an aggregate directive: the prefix [agg__] and an [=]. *)
Definition isAggregateDirective (c : string) : bool :=
  strings.HasPrefix c "agg__" && negb (Nat.eqb (countByte "="%char c) 0).

(** What one iteration of the loop does with the clause [c], by the shape
    of [c]. *)
Inductive stepKind (w : WhereClause) (c : string) : outcome WhereClause -> Prop :=
| StepAggregate (fn fields : string) :
    c = "agg__" ++ fn ++ "=" ++ fields -> countByte "="%char fn = O ->
    stepKind w c (assignAggregate w fn (strings.Split fields "|"))
| StepSkip :
    c = "" \/ strings.HasPrefix c "useData" = true
           \/ strings.HasPrefix c "useCache" = true ->
    stepKind w c (Ok w)
| StepPreload (rest : string) :
    c = "with_" ++ rest ->
    stepKind w c (Ok (setPreload (Preload w ++ strings.Split rest "|") w))
| StepSortAsc (value : string) :
    c = "orderByASC=" ++ value ->
    stepKind w c (Ok (setOrderByASC value w))
| StepSortDesc (value : string) :
    c = "orderByDESC=" ++ value ->
    stepKind w c (Ok (setOrderByDESC value w))
| StepPagination (key value : string) :
    In key paginationKeys -> c = key ++ "=" ++ value ->
    stepKind w c (setPaginationField w key value)
| StepOrGroup :
    beginsWithDirectiveKey c = false ->
    stepKind w c (orGroup w c).

(** An iteration that goes on to the next clause: the descriptor after it,
    by the shape of the clause. *)
Inductive stepOk (w : WhereClause) (c : string) : WhereClause -> Prop :=
| OkAggregate (fn fields : string) (m : gmap string (list string)) :
    c = "agg__" ++ fn ++ "=" ++ fields -> countByte "="%char fn = O ->
    Aggregates w = Some m ->
    stepOk w c (setAggregates (Some (<[fn := strings.Split fields "|"]> m)) w)
| OkSkip :
    c = "" \/ strings.HasPrefix c "useData" = true
           \/ strings.HasPrefix c "useCache" = true ->
    stepOk w c w
| OkPreload (rest : string) :
    c = "with_" ++ rest ->
    stepOk w c (setPreload (Preload w ++ strings.Split rest "|") w)
| OkSortAsc (value : string) :
    c = "orderByASC=" ++ value -> stepOk w c (setOrderByASC value w)
| OkSortDesc (value : string) :
    c = "orderByDESC=" ++ value -> stepOk w c (setOrderByDESC value w)
| OkLimit (value : string) (n : Z) :
    c = "limit=" ++ value -> strconv.Atoi value = inl n ->
    stepOk w c (setLimit n w)
| OkOffset (value : string) (n : Z) :
    c = "offset=" ++ value -> strconv.Atoi value = inl n ->
    stepOk w c (setOffset n w)
| OkPage (value : string) (n : Z) :
    c = "page=" ++ value -> strconv.Atoi value = inl n ->
    stepOk w c (setPage n w)
| OkPageSize (value : string) (n : Z) :
    c = "pageSize=" ++ value -> strconv.Atoi value = inl n ->
    stepOk w c (setPageSize n w)
| OkOrGroup (query : string) (args : list any) :
    beginsWithDirectiveKey c = false ->
    orGroup w c = Ok (setQuery query (setArgs args w)) ->
    stepOk w c (setQuery query (setArgs args w)).

(** The clause is taken by one of the tests that come before the sort and
    pagination keys: an aggregate directive, the empty clause, an
    ignore-marker or a preload directive. *)
Definition earlierDirective (c : string) : bool :=
  isAggregateDirective c || String.eqb c ""
  || strings.HasPrefix c "useData" || strings.HasPrefix c "useCache"
  || strings.HasPrefix c "with_".

(** A string of decimal digits, read without any bound on the value;
    [None] when some byte is no digit. *)
Fixpoint decimalValue (s : string) (acc : Z) : option Z :=
  match s with
  | EmptyString => Some acc
  | String c s' =>
      let b := strconv.byteVal c in
      if (48 <=? b) && (b <=? 57)
      then decimalValue s' (acc * 10 + (b - 48)) else None
  end.

(** A base-10 integer as [Atoi] reads it: an optional sign, at least one
    decimal digit and nothing else, with a value in the range of [int]. *)
Definition specAtoi (s : string) : option Z :=
  match s with
  | EmptyString => None
  | String c rest =>
      let body := if strconv.isSign c then rest else s in
      match body with
      | EmptyString => None
      | _ =>
          match decimalValue body 0 with
          | Some v =>
              let n := if Ascii.eqb c "-" then - v else v in
              if (- 2 ^ 63 <=? n) && (n <? 2 ^ 63) then Some n else None
          | None => None
          end
      end
  end.

(** A clause recognized as a numeric pagination directive whose value
    is no base-10 integer. *)
Definition rejectedPagination (c : string) : Prop :=
  exists key value, In key paginationKeys /\ c = key ++ "=" ++ value
                    /\ specAtoi value = None.

(** No clause of the input is an aggregate directive. *)
Definition noAggregateDirective (s : string) : bool :=
  forallb (fun c => negb (isAggregateDirective c)) (strings.Split s "&").

(** The values of a Go [int] on a 64-bit platform. *)
Definition inIntRange (n : Z) : Prop := - 2 ^ 63 <= n < 2 ^ 63.

(** Some clause of the input begins with [key=]. *)
Definition hasDirective (key s : string) : bool :=
  existsb (fun c => strings.HasPrefix c (key ++ "=")) (strings.Split s "&").

Definition fieldsInRange (w : WhereClause) : Prop :=
  inIntRange (Limit w) /\ inIntRange (Offset w)
  /\ inIntRange (Page w) /\ inIntRange (PageSize w).

(** The field name of a piece [field[__suffix]=value], as
    [processCondition] cuts it; [None] for a piece without [=]. *)
Definition fieldOfPiece (piece : string) : option string :=
  match strings.SplitN piece "=" 2 with
  | [key; _] => Some (hd "" (strings.SplitN key "__" 2))
  | _ => None
  end.

(** No field name of the input contains a [?]. *)
Definition fieldWithoutPlaceholder (piece : string) : bool :=
  match fieldOfPiece piece with
  | Some field => Nat.eqb (placeholders field) 0
  | None => true
  end.

Definition fieldsWithoutPlaceholder (s : string) : bool :=
  forallb (fun c => forallb fieldWithoutPlaceholder (strings.Split c "|"))
          (strings.Split s "&").

(** The placeholders of a list of fragments. *)
Definition sumPlaceholders (parts : list string) : nat :=
  list_sum (map placeholders parts).

(* ===================================================================== *)
(** ** Vocabulary of the properties of the whole compilation *)
(* ===================================================================== *)

(** The pieces of [s] between the occurrences of the byte [c], by
    recursion on [s]. *)
Fixpoint splitByte (c : ascii) (s : string) : list string :=
  match s with
  | EmptyString => [EmptyString]
  | String x s' =>
      if Ascii.eqb x c then EmptyString :: splitByte c s'
      else match splitByte c s' with
           | p :: l => String x p :: l
           | [] => [String x EmptyString]
           end
  end.

(** A clause the loop passes over: the empty clause and the
    ignore-markers. *)
Definition isIgnored (c : string) : bool :=
  String.eqb c "" || strings.HasPrefix c "useData"
  || strings.HasPrefix c "useCache".

(** The clause reaches the OR-group: none of the directive tests takes it. *)
Definition reachesOrGroup (c : string) : bool :=
  negb (earlierDirective c || beginsWithDirectiveKey c).

(** The fragments and the arguments of the pieces of an OR-group, in
    order; a piece without [=] gives neither. *)
Definition piecesFragments (pieces : list string) : list string :=
  List.filter (fun f => negb (String.eqb f ""))
    (map (fun p => fst (fst (processCondition p))) pieces).

Definition piecesArgs (pieces : list string) : list any :=
  flat_map (fun p => snd (fst (processCondition p))) pieces.

Definition groupFragments (c : string) : list string :=
  piecesFragments (strings.Split c "|").

Definition groupArgs (c : string) : list any :=
  piecesArgs (strings.Split c "|").

Definition renderGroup (fragments : list string) : string :=
  "(" ++ strings.Join fragments " OR " ++ ")".

Definition nonEmptyGroup (fragments : list string) : bool :=
  match fragments with [] => false | _ => true end.

(** A group joined to the predicate so far. *)
Definition appendGroup (query group : string) : string :=
  if negb (String.eqb query "") then (query ++ " AND ") ++ group
  else query ++ group.

(** The rendered non-empty OR-groups of a list of clauses. *)
Definition groupsOf (clauses : list string) : list string :=
  map renderGroup
    (List.filter nonEmptyGroup
       (map groupFragments (List.filter reachesOrGroup clauses))).

(** The predicate and the arguments of an input, said at once: the
    non-empty OR-groups joined by [" AND "], and the values of their
    conditions. *)
Definition specQuery (s : string) : string :=
  strings.Join (groupsOf (strings.Split s "&")) " AND ".

Definition specArgs (s : string) : list any :=
  flat_map groupArgs (List.filter reachesOrGroup (strings.Split s "&")).

(** The association names of the preload clauses of an input, in order. *)
Definition specPreload (s : string) : list string :=
  flat_map (fun c => if strings.HasPrefix c "with_"
                     then strings.Split (strings.TrimPrefix c "with_") "|"
                     else [])
           (strings.Split s "&").

(** The values of the clauses that begin with [key=], in order. *)
Definition directiveValues (key : string) (clauses : list string) : list string :=
  flat_map (fun c => if strings.HasPrefix c (key ++ "=")
                     then [strings.sliceFrom (strings.len (key ++ "=")) c]
                     else [])
           clauses.

(** The integer of a value that [Atoi] accepts. *)
Definition atoiValue (value : string) : Z :=
  match strconv.Atoi value with
  | inl n => n
  | inr _ => 0
  end.

(** The function name and the fields of an aggregate directive. *)
Definition aggregateOf (c : string) : option (string * list string) :=
  if isAggregateDirective c then
    match strings.SplitN c "=" 2 with
    | [name; fields] =>
        Some (strings.TrimPrefix name "agg__", strings.Split fields "|")
    | _ => None
    end
  else None.

(** The field lists that the directives of the function [fn] record, in
    order. *)
Definition aggregateEntries (fn : string) (clauses : list string)
    : list (list string) :=
  flat_map (fun c => match aggregateOf c with
                     | Some (name, fields) =>
                         if String.eqb name fn then [fields] else []
                     | None => []
                     end)
           clauses.

(* ===================================================================== *)
(** ** Chains of builder calls *)
(* ===================================================================== *)

(** One call of a builder method, with its arguments. *)
Inductive builderCall : Type :=
| CallAddPreload (preload : string)
| CallWhere (query : string) (args : list any)
| CallAddAnd
| CallAddOr
| CallAnd (query : string) (args : list any)
| CallOr (query : string) (args : list any)
| CallLimitClause (limit : Z)
| CallOffsetClause (offset : Z)
| CallLike (field value : string)
| CallIs (field : string) (value : any)
| CallIsNot (field : string) (value : any)
| CallGreaterThan (field : string) (value : any)
| CallLessThanOrEqual (field : string) (value : any)
| CallGreaterThanOrEqual (field : string) (value : any)
| CallNotEqual (field : string) (value : any)
| CallEqual (field : string) (value : any)
| CallDateRange (field : string) (startDate endDate : any)
| CallLengthGreaterThan (field : string) (length : Z).

(** [w.Method(args)]: the descriptor after the call. *)
Definition call (w : WhereClause) (c : builderCall) : WhereClause :=
  match c with
  | CallAddPreload preload => AddPreload w preload
  | CallWhere query args => Where w query args
  | CallAddAnd => AddAnd w
  | CallAddOr => AddOr w
  | CallAnd query args => And w query args
  | CallOr query args => Or w query args
  | CallLimitClause limit => LimitClause w limit
  | CallOffsetClause offset => OffsetClause w offset
  | CallLike field value => Like w field value
  | CallIs field value => Is w field value
  | CallIsNot field value => IsNot w field value
  | CallGreaterThan field value => GreaterThan w field value
  | CallLessThanOrEqual field value => LessThanOrEqual w field value
  | CallGreaterThanOrEqual field value => GreaterThanOrEqual w field value
  | CallNotEqual field value => NotEqual w field value
  | CallEqual field value => Equal w field value
  | CallDateRange field startDate endDate => DateRange w field startDate endDate
  | CallLengthGreaterThan field length => LengthGreaterThan w field length
  end.

(** [w.M1(...).M2(...)...]: the calls of a chain, from left to right. *)
Definition chain (calls : list builderCall) (w : WhereClause) : WhereClause :=
  fold_left call calls w.

(** A call whose text has as many [?] as it brings arguments: a query
    with one [?] for each argument, a field name without [?]. *)
Definition wellFormedCall (c : builderCall) : bool :=
  match c with
  | CallWhere query args | CallAnd query args | CallOr query args =>
      Nat.eqb (placeholders query) (length args)
  | CallLike field _ | CallIs field _ | CallIsNot field _
  | CallGreaterThan field _ | CallLessThanOrEqual field _
  | CallGreaterThanOrEqual field _ | CallNotEqual field _
  | CallEqual field _ | CallDateRange field _ _
  | CallLengthGreaterThan field _ =>
      Nat.eqb (placeholders field) 0
  | _ => true
  end.

(** The comparison helpers: the fragment and the values that the call
    appends; [None] for the other methods. *)
Definition comparisonOf (c : builderCall) : option (string * list any) :=
  match c with
  | CallLike field value => Some (field ++ " LIKE ?", [AnyString value])
  | CallIs field value => Some (field ++ " IS ?", [value])
  | CallIsNot field value => Some (field ++ " IS NOT ?", [value])
  | CallGreaterThan field value => Some (field ++ " > ?", [value])
  | CallLessThanOrEqual field value => Some (field ++ " <= ?", [value])
  | CallGreaterThanOrEqual field value => Some (field ++ " >= ?", [value])
  | CallNotEqual field value => Some (field ++ " != ?", [value])
  | CallEqual field value => Some (field ++ " = ?", [value])
  | CallDateRange field startDate endDate =>
      Some (field ++ " >= ? AND " ++ field ++ " <= ?", [startDate; endDate])
  | CallLengthGreaterThan field length =>
      Some ("LENGTH(" ++ field ++ ") > ?", [AnyInt length])
  | _ => None
  end.

Definition isComparison (c : builderCall) : bool :=
  match comparisonOf c with Some _ => true | None => false end.

Definition fragmentOf (c : builderCall) : string :=
  match comparisonOf c with Some (fragment, _) => fragment | None => "" end.

Definition valuesOf (c : builderCall) : list any :=
  match comparisonOf c with Some (_, values) => values | None => [] end.

(** The names that the [AddPreload] calls of a chain give, in order. *)
Definition preloadsOf (calls : list builderCall) : list string :=
  flat_map (fun c => match c with CallAddPreload p => [p] | _ => [] end) calls.

(** [AddAnd] before every call of the list. *)
Definition withAddAnd (calls : list builderCall) : list builderCall :=
  flat_map (fun c => [CallAddAnd; c]) calls.

(* ===================================================================== *)
(** ** [base.go]: the type name of a model and the arithmetic of a page *)
(* ===================================================================== *)

Module base.

(** A [reflect.Type] as [GetType] looks at it: a struct type with the
    text of its [String()], a pointer type with its [Elem()], or a type
    of another kind. *)
Inductive rtype : Type :=
| TStruct (str : string)
| TPtr (elem : rtype)
| TOther (str : string).

(** [GetType(model)].  [reflect.TypeOf] of a nil interface is nil, and
    [Kind] on it panics; [None] is that nil interface.  Only one pointer
    is followed.  [parts[len(parts)-1]] is an index into the slice. *)
Definition GetType (model : option rtype) : outcome string :=
  match model with
  | None => Panic "invalid memory address or nil pointer dereference"
  | Some t =>
      let t := match t with TPtr elem => elem | _ => t end in
      match t with
      | TStruct typeName =>
          let parts := strings.Split typeName "." in
          match nth_error parts (length parts - 1) with
          | Some name => Ok name
          | None => Panic "index out of range"
          end
      | _ => Ok "Not a struct"
      end
  end.

(** [PaginatedResult] without [Results], the caller's pointer to the
    models, which is handed back as it came. *)
Record PaginatedResult : Type := mkPaginatedResult {
  Count : Z;
  TotalPages : Z;
  HasNext : bool;
  HasPrev : bool;
  Page : Z
}.

(** A result of integer arithmetic, wrapped into the 64 bits of [int]. *)
Definition wrapInt (z : Z) : Z := (z + 2 ^ 63) mod 2 ^ 64 - 2 ^ 63.

(** [GetAllPaginated] (lines 130-161).  The database is outside the
    model: [count] is what [db.Count] stored, or its error, and
    [find offset limit] the error of
    [db.Offset(offset).Limit(limit).Find(models)].  The function returns
    the result, nil after a failed count, and the error it hands to
    [o.resp.New].  Go's [/] and [%] truncate towards zero and panic on a
    zero divisor. *)
Definition GetAllPaginated {dbError : Type} (count : Z + dbError)
    (find : Z -> Z -> option dbError) (page pageSize : Z)
    : outcome (option PaginatedResult * option dbError) :=
  match count with
  | inr err => Ok (None, Some err)
  | inl count =>
      if pageSize =? 0 then Panic "integer divide by zero"
      else
        let totalPages := wrapInt (Z.quot count pageSize) in
        let totalPages :=
          if 0 <? Z.rem count pageSize then wrapInt (totalPages + 1)
          else totalPages in
        let offset := wrapInt (wrapInt (page - 1) * pageSize) in
        let err := find offset pageSize in
        Ok (Some (mkPaginatedResult count totalPages (page <? totalPages)
                    (1 <? page) page),
            err)
  end.

(** *** The bulk operations (lines 225-287)

    The database, the validator and the [response] package are outside
    the sources.  A transaction is the list of the calls made on it, in
    order; [dbResult] gives the error, if any, of the last call of such a
    list, and [validate] the error of [o.validate.Struct].  A response is
    the record of the arguments of [o.resp.New]. *)

Section Bulk.
Variables (M E : Type).

Inductive ormError : Type :=
| MismatchError
| MissingWhereClause
| OtherError (err : E).

Inductive respModel : Type :=
| RModel (model : M)
| REntity (entity : string)
| RNil.

Inductive ErrorResponse : Type :=
| NewResponse (err : ormError) (model : respModel).

Inductive dbEvent : Type :=
| EvBegin
| EvCreate (model : M)
| EvUpdate (model : M) (uuid : string) (query : string) (args : list any)
| EvDelete (entity : string) (uuid : string) (query : string) (args : list any)
| EvRollback
| EvCommit.

Variable validate : M -> option E.
Variable dbResult : list dbEvent -> option E.

(** [if err := tx.Commit().Error; err != nil { ... }; return respErrors] *)
Definition commit (tx : list dbEvent) : list ErrorResponse * list dbEvent :=
  let tx := (tx ++ [EvCommit])%list in
  match dbResult tx with
  | Some err => ([NewResponse (OtherError err) RNil], tx)
  | None => ([], tx)
  end.

Fixpoint bulkCreateLoop (models : list M) (tx : list dbEvent)
    : list ErrorResponse * list dbEvent :=
  match models with
  | [] => commit tx
  | model :: rest =>
      match validate model with
      | Some err => ([NewResponse (OtherError err) (RModel model)], tx)
      | None =>
          let tx := (tx ++ [EvCreate model])%list in
          match dbResult tx with
          | Some err =>
              ([NewResponse (OtherError err) (RModel model)],
               (tx ++ [EvRollback])%list)
          | None => bulkCreateLoop rest tx
          end
      end
  end.

(** [BulkCreate(models)]: the responses and the calls on the transaction. *)
Definition BulkCreate (models : list M) : list ErrorResponse * list dbEvent :=
  bulkCreateLoop models [EvBegin].

(** The loop of [BulkUpdate], at the index [i]. *)
Fixpoint bulkUpdateLoop (i : nat) (models : list M) (uuids : list string)
    (where_ : option WhereClause) (tx : list dbEvent)
    : outcome (list ErrorResponse * list dbEvent) :=
  match models with
  | [] => Ok (commit tx)
  | model :: rest =>
      match where_ with
      | None => Ok ([NewResponse MissingWhereClause RNil], tx)
      | Some w =>
          match nth_error uuids i with
          | None => Panic "index out of range"
          | Some uuid =>
              let tx := (tx ++ [EvUpdate model uuid (Query w) (Args w)])%list in
              match dbResult tx with
              | Some err =>
                  Ok ([NewResponse (OtherError err) (RModel model)],
                      (tx ++ [EvRollback])%list)
              | None => bulkUpdateLoop (S i) rest uuids where_ tx
              end
          end
      end
  end.

(** [BulkUpdate(models, uuids, where_)] *)
Definition BulkUpdate (models : list M) (uuids : list string)
    (where_ : option WhereClause)
    : outcome (list ErrorResponse * list dbEvent) :=
  if negb (Nat.eqb (length models) (length uuids))
  then Ok ([NewResponse MismatchError RNil], [])
  else bulkUpdateLoop 0 models uuids where_ [EvBegin].

(** The loop of [BulkDelete]; [GetType(modelType)] is called in every
    round. *)
Fixpoint bulkDeleteLoop (modelType : option rtype) (uuids : list string)
    (w : WhereClause) (tx : list dbEvent)
    : outcome (list ErrorResponse * list dbEvent) :=
  match uuids with
  | [] => Ok (commit tx)
  | uuid :: rest =>
      match GetType modelType with
      | Ok entity =>
          let tx := (tx ++ [EvDelete entity uuid (Query w) (Args w)])%list in
          match dbResult tx with
          | Some err =>
              Ok ([NewResponse (OtherError err) (REntity entity)],
                  (tx ++ [EvRollback])%list)
          | None => bulkDeleteLoop modelType rest w tx
          end
      | Err e => Err e
      | Panic msg => Panic msg
      end
  end.

(** [BulkDelete(modelType, uuids, where_)] *)
Definition BulkDelete (modelType : option rtype) (uuids : list string)
    (where_ : option WhereClause)
    : outcome (list ErrorResponse * list dbEvent) :=
  match where_ with
  | None => Ok ([NewResponse MissingWhereClause RNil], [])
  | Some w => bulkDeleteLoop modelType uuids w [EvBegin]
  end.

End Bulk.

Arguments MismatchError {E}.
Arguments MissingWhereClause {E}.
Arguments OtherError {E} err.
Arguments RModel {M} model.
Arguments REntity {M} entity.
Arguments RNil {M}.
Arguments NewResponse {M E} err model.
Arguments EvBegin {M}.
Arguments EvCreate {M} model.
Arguments EvUpdate {M} model uuid query args.
Arguments EvDelete {M} entity uuid query args.
Arguments EvRollback {M}.
Arguments EvCommit {M}.
Arguments commit {M E} dbResult tx.
Arguments bulkCreateLoop {M E} validate dbResult models tx.
Arguments BulkCreate {M E} validate dbResult models.
Arguments bulkUpdateLoop {M E} dbResult i models uuids where_ tx.
Arguments BulkUpdate {M E} dbResult models uuids where_.
Arguments bulkDeleteLoop {M E} dbResult modelType uuids w tx.
Arguments BulkDelete {M E} dbResult modelType uuids where_.

(** The calls that end a transaction. *)
Definition endsTransaction {M : Type} (ev : dbEvent M) : bool :=
  match ev with
  | EvCommit | EvRollback => true
  | _ => false
  end.

(** A transaction begun and ended once: [Begin], calls that do not end
    it, and one [Commit] or [Rollback] as the last call. *)
Definition settled {M : Type} (tx : list (dbEvent M)) : Prop :=
  exists work final,
    tx = (EvBegin :: work ++ [final])%list
    /\ forallb (fun ev => negb (endsTransaction ev)) work = true
    /\ endsTransaction final = true.

(** A transaction begun and left open. *)
Definition leftOpen {M : Type} (tx : list (dbEvent M)) : Prop :=
  exists work,
    tx = EvBegin :: work
    /\ forallb (fun ev => negb (endsTransaction ev)) work = true.

(** The update and delete calls of a whole run, in order. *)
Definition updatesOf {M : Type} (w : WhereClause) (models : list M)
    (uuids : list string) : list (dbEvent M) :=
  map (fun mu => EvUpdate (fst mu) (snd mu) (Query w) (Args w))
      (combine models uuids).

Definition deletesOf {M : Type} (w : WhereClause) (entity : string)
    (uuids : list string) : list (dbEvent M) :=
  map (fun uuid => EvDelete entity uuid (Query w) (Args w)) uuids.

End base.

(* ===================================================================== *)
(** ** The model on the examples of the source and of the specification *)
(* ===================================================================== *)

Example Split_example1 :
  strings.Split "a=1&b__gt=2&&c" "&" = ["a=1"; "b__gt=2"; ""; "c"].
Proof. reflexivity. Qed.

Example SplitN_example1 :
  strings.SplitN "k=v=w" "=" 2 = ["k"; "v=w"]
  /\ strings.SplitN "a___gt" "__" 2 = ["a"; "_gt"]
  /\ strings.SplitN "garbage" "=" 2 = ["garbage"]
  /\ strings.SplitN "" "=" 2 = [""].
Proof. repeat split; reflexivity. Qed.

Example Join_example1 :
  strings.Join ["a = ?"; "b > ?"] " OR " = "a = ? OR b > ?".
Proof. reflexivity. Qed.

Example Atoi_examples :
  strconv.Atoi "10" = inl 10
  /\ strconv.Atoi "-5" = inl (-5)
  /\ strconv.Atoi "+7" = inl 7
  /\ strconv.Atoi "abc" = inr (strconv.syntaxError "Atoi" "abc")
  /\ strconv.Atoi "" = inr (strconv.syntaxError "Atoi" "")
  /\ strconv.Atoi "1|a=2" = inr (strconv.syntaxError "Atoi" "1|a=2")
  /\ strconv.Atoi "9223372036854775807" = inl 9223372036854775807
  /\ strconv.Atoi "9223372036854775808" = inr (strconv.rangeError "Atoi" "9223372036854775808")
  /\ strconv.Atoi "-9223372036854775808" = inl (-9223372036854775808)
  /\ strconv.Atoi "99999999999999999999999" = inr (strconv.rangeError "Atoi" "99999999999999999999999").
Proof. repeat split; vm_compute; reflexivity. Qed.

Example BuildWhereClause_usage :
  BuildWhereClause
    "firstName__ne=John&lastName=Smith|age__gt=30&with_team|with_friends&limit=10&offset=20&page=2&pageSize=10"
  = Ok (mkWhereClause
          "(firstName != ?) AND (lastName = ? OR age > ?)"
          [AnyString "John"; AnyString "Smith"; AnyString "30"]
          ["team"; "with_friends"] 10 20 "" "" 2 10 (Some ∅)).
Proof. vm_compute. reflexivity. Qed.

(* ===================================================================== *)
(** ** Facts about the string primitives *)
(* ===================================================================== *)

Section StringFacts.
Import strings.

Lemma app_assoc_s (a b c : string) : (a ++ b) ++ c = a ++ (b ++ c).
Proof. induction a as [|x a IH]; simpl; [reflexivity | now rewrite IH]. Qed.

Lemma app_nil_r_s (a : string) : a ++ "" = a.
Proof. induction a as [|x a IH]; simpl; [reflexivity | now rewrite IH]. Qed.

Lemma len_app (a b : string) : len (a ++ b) = (len a + len b)%nat.
Proof. unfold len. induction a as [|x a IH]; simpl; [reflexivity | now rewrite IH]. Qed.

Lemma HasPrefix_app (p s : string) : HasPrefix (p ++ s) p = true.
Proof.
  induction p as [|x p IH]; simpl; [reflexivity|].
  now rewrite Ascii.eqb_refl.
Qed.

Lemma HasPrefix_true (s p : string) :
  HasPrefix s p = true -> s = p ++ sliceFrom (len p) s.
Proof.
  revert s. induction p as [|x p IH]; intros s H; simpl in *.
  - now destruct s.
  - destruct s as [|c s]; [discriminate|].
    destruct (Ascii.eqb_spec c x) as [->|]; [|discriminate].
    f_equal. now apply IH.
Qed.

Lemma HasPrefix_nil (p : string) : p <> "" -> HasPrefix "" p = false.
Proof. destruct p; [congruence | reflexivity]. Qed.

Lemma sliceTo_app (a b : string) : sliceTo (len a) (a ++ b) = a.
Proof. induction a as [|x a IH]; simpl; [now destruct b | now rewrite IH]. Qed.

Lemma sliceFrom_app (a b : string) : sliceFrom (len a) (a ++ b) = b.
Proof. induction a as [|x a IH]; simpl; [now destruct b | exact IH]. Qed.

Lemma sliceFrom_add (n m : nat) (s : string) :
  sliceFrom (n + m) s = sliceFrom m (sliceFrom n s).
Proof.
  revert s. induction n as [|n IH]; intros s; simpl; [reflexivity|].
  destruct s as [|c s]; [now destruct m | apply IH].
Qed.

Lemma sliceFrom_app2 (a sep b : string) :
  sliceFrom (len a + len sep) (a ++ sep ++ b) = b.
Proof. now rewrite sliceFrom_add, !sliceFrom_app. Qed.

(** [Index] finds an occurrence: the string is what precedes it, the
    separator, and what follows. *)
Lemma Index_Some (s sep : string) (m : nat) :
  Index s sep = Some m ->
  s = sliceTo m s ++ sep ++ sliceFrom (m + len sep) s.
Proof.
  revert m. induction s as [|c s IH]; intros m.
  - simpl. destruct (HasPrefix "" sep) eqn:E; [|discriminate].
    intros [= <-]. now apply HasPrefix_true in E.
  - cbn [Index]. destruct (HasPrefix (String c s) sep) eqn:E.
    + intros [= <-]. now apply HasPrefix_true in E.
    + destruct (Index s sep) as [k|] eqn:Ek; [|discriminate].
      intros [= <-]. simpl. f_equal. now apply IH.
Qed.

Lemma Index_nil (sep : string) : sep <> "" -> Index "" sep = None.
Proof. intros H. simpl. now rewrite HasPrefix_nil. Qed.

(** [SplitN(s, sep, 2)] cuts at the first occurrence of [sep], if any. *)
Lemma SplitN_2 (s sep : string) :
  sep <> "" ->
  SplitN s sep 2 =
    match Index s sep with
    | Some m => [sliceTo m s; sliceFrom (m + len sep) s]
    | None => [s]
    end.
Proof.
  intros Hsep. unfold SplitN, genSplit.
  destruct s as [|c s].
  - now rewrite Index_nil.
  - change (2 =? 0) with false. change (2 <? 0) with false. cbv iota.
    replace (Z.of_nat (len (String c s)) + 1 <? 2) with false.
    + reflexivity.
    + symmetry. apply Z.ltb_ge. unfold len. simpl String.length. lia.
Qed.

Lemma SplitN_2_length (s sep : string) :
  sep <> "" -> (exists a b, SplitN s sep 2 = [a; b]) \/ SplitN s sep 2 = [s].
Proof.
  intros H. rewrite SplitN_2 by assumption.
  destruct (Index s sep); eauto.
Qed.

(** If [SplitN(s, sep, 2)] has two elements, [s] is the first, the
    separator and the second. *)
Lemma SplitN_2_two (s sep a b : string) :
  sep <> "" -> SplitN s sep 2 = [a; b] -> s = a ++ sep ++ b.
Proof.
  intros Hsep. rewrite SplitN_2 by assumption.
  destruct (Index s sep) as [m|] eqn:E; [|discriminate].
  intros [= <- <-]. now apply Index_Some.
Qed.

(** If the first occurrence of [sep] in [a ++ sep ++ b] is the one
    written, [SplitN] returns [a] and [b]. *)
Lemma SplitN_2_at (a sep b : string) :
  sep <> "" -> Index (a ++ sep ++ b) sep = Some (len a) ->
  SplitN (a ++ sep ++ b) sep 2 = [a; b].
Proof.
  intros Hsep H. rewrite SplitN_2, H by assumption.
  now rewrite sliceTo_app, sliceFrom_app2.
Qed.

(** Splitting on a single byte. *)
Lemma Index_byte_None (c : ascii) (s : string) :
  Index s (String c "") = None <-> countByte c s = O.
Proof.
  induction s as [|x s IH]; [simpl; tauto|].
  cbn [Index HasPrefix countByte].
  destruct (Ascii.eqb x c).
  - replace (HasPrefix s "") with true by now destruct s.
    split; [discriminate | simpl; lia].
  - destruct (Index s (String c "")); simpl.
    + split; [discriminate|]. intros H. apply IH in H. discriminate.
    + tauto.
Qed.

Lemma Index_byte_app (c : ascii) (a b : string) :
  countByte c a = O -> Index (a ++ String c b) (String c "") = Some (len a).
Proof.
  induction a as [|x a IH]; intros H.
  - cbn [append Index HasPrefix]. rewrite Ascii.eqb_refl. now destruct b.
  - cbn [append Index HasPrefix]. simpl in H.
    destruct (Ascii.eqb x c); [discriminate|].
    rewrite IH by exact H. reflexivity.
Qed.

Lemma Index_byte_prefix (c : ascii) (s : string) (m : nat) :
  Index s (String c "") = Some m -> countByte c (sliceTo m s) = O.
Proof.
  revert m. induction s as [|x s IH]; intros m.
  - simpl. discriminate.
  - cbn [Index HasPrefix]. destruct (Ascii.eqb x c) eqn:E.
    + replace (HasPrefix s "") with true by now destruct s.
      now intros [= <-].
    + destruct (Index s (String c "")) as [k|]; [|discriminate].
      intros [= <-]. simpl. rewrite E. now apply IH.
Qed.

Lemma SplitN_byte_intro (c : ascii) (a b : string) :
  countByte c a = O -> SplitN (a ++ String c b) (String c "") 2 = [a; b].
Proof.
  intros H. apply (SplitN_2_at a (String c "") b); [discriminate|].
  now apply Index_byte_app.
Qed.

Lemma SplitN_byte_elim (c : ascii) (s a b : string) :
  SplitN s (String c "") 2 = [a; b] ->
  s = a ++ String c b /\ countByte c a = O.
Proof.
  intros H. split.
  - now apply (SplitN_2_two s (String c "") a b).
  - rewrite SplitN_2 in H by discriminate.
    destruct (Index s (String c "")) as [m|] eqn:E; [|discriminate].
    injection H as <- _. now apply Index_byte_prefix in E.
Qed.

Lemma SplitN_byte_none (c : ascii) (s : string) :
  countByte c s = O -> SplitN s (String c "") 2 = [s].
Proof.
  intros H. rewrite SplitN_2 by discriminate.
  apply Index_byte_None in H. now rewrite H.
Qed.

Lemma countByte_app (c : ascii) (a b : string) :
  countByte c (a ++ b) = (countByte c a + countByte c b)%nat.
Proof. induction a as [|x a IH]; simpl; [reflexivity | rewrite IH; lia]. Qed.

End StringFacts.

(* ===================================================================== *)
(** ** [Split] cuts at every separator *)
(* ===================================================================== *)

Section SplitFacts.
Import strings.

Lemma Index_shorter (s sep : string) (i : nat) :
  sep <> "" -> Index s sep = Some i ->
  (len (sliceFrom (i + len sep) s) < len s)%nat.
Proof.
  intros Hsep H. apply Index_Some in H.
  apply (f_equal len) in H. rewrite !len_app in H.
  assert (1 <= len sep)%nat
    by (destruct sep; [congruence | unfold len; simpl; lia]).
  lia.
Qed.

(** The rounds of [Count] are enough: one more changes nothing. *)
Lemma countLoop_enough (sep : string) (r : nat) (s : string) :
  sep <> "" -> (len s <= r)%nat ->
  countLoop (S r) s sep = countLoop r s sep.
Proof.
  intros Hsep. revert s. induction r as [|r IH]; intros s Hlen.
  - destruct s; [|unfold len in Hlen; simpl in Hlen; lia].
    cbn [countLoop]. now rewrite Index_nil.
  - change (countLoop (S (S r)) s sep)
      with (match Index s sep with
            | None => O
            | Some i => S (countLoop (S r) (sliceFrom (i + len sep) s) sep)
            end).
    cbn [countLoop]. destruct (Index s sep) as [i|] eqn:E; [|reflexivity].
    f_equal. apply IH.
    pose proof (Index_shorter s sep i Hsep E). lia.
Qed.

Lemma countLoop_le (sep : string) (r : nat) (s : string) :
  sep <> "" -> (countLoop r s sep <= len s)%nat.
Proof.
  intros Hsep. revert s. induction r as [|r IH]; intros s; cbn [countLoop]; [lia|].
  destruct (Index s sep) as [i|] eqn:E; [|lia].
  pose proof (Index_shorter s sep i Hsep E).
  specialize (IH (sliceFrom (i + len sep) s)). lia.
Qed.

(** [Split] runs the loop of [genSplit] once per occurrence counted. *)
Lemma Split_splitLoop (s sep : string) :
  sep <> "" -> Split s sep = splitLoop (Count s sep) s sep.
Proof.
  intros Hsep. unfold Split, genSplit.
  change (-1 =? 0) with false. change (-1 <? 0) with true. cbv iota.
  pose proof (countLoop_le sep (len s) s Hsep) as Hle. fold (Count s sep) in Hle.
  destruct (Z.ltb_spec (Z.of_nat (len s) + 1) (Z.of_nat (Count s sep) + 1));
    [lia|].
  f_equal. lia.
Qed.

(** Joining the pieces with the separator gives the string back. *)
Lemma Join_splitLoop (n : nat) (s sep : string) :
  Join (splitLoop n s sep) sep = s.
Proof.
  revert s. induction n as [|n IH]; intros s; [reflexivity|].
  cbn [splitLoop]. destruct (Index s sep) as [m|] eqn:E; [|reflexivity].
  specialize (IH (sliceFrom (m + len sep) s)).
  apply Index_Some in E.
  destruct (splitLoop n (sliceFrom (m + len sep) s) sep) as [|p l] eqn:El.
  - destruct n; cbn [splitLoop] in El; [discriminate|].
    destruct (Index (sliceFrom (m + len sep) s) sep); discriminate.
  - change (Join (sliceTo m s :: p :: l) sep)
      with (sliceTo m s ++ sep ++ Join (p :: l) sep).
    rewrite IH. now rewrite <- E.
Qed.

Lemma Join_Split (s sep : string) : sep <> "" -> Join (Split s sep) sep = s.
Proof. intros H. rewrite Split_splitLoop by exact H. apply Join_splitLoop. Qed.

(** No piece of a split on one byte contains that byte. *)
Lemma splitLoop_byte_pieces (c : ascii) (r : nat) (s : string) :
  (len s <= r)%nat ->
  Forall (fun p => countByte c p = O)
         (splitLoop (countLoop r s (String c "")) s (String c "")).
Proof.
  revert s. induction r as [|r IH]; intros s Hlen.
  - destruct s; [|unfold len in Hlen; simpl in Hlen; lia].
    repeat constructor.
  - cbn [countLoop]. destruct (Index s (String c "")) as [i|] eqn:E.
    + cbn [splitLoop]. rewrite E. constructor.
      * now apply Index_byte_prefix.
      * apply IH.
        pose proof (Index_shorter s (String c "") i ltac:(discriminate) E). lia.
    + cbn [splitLoop]. repeat constructor. now apply Index_byte_None.
Qed.

Lemma Split_byte_pieces (c : ascii) (s : string) :
  Forall (fun p => countByte c p = O) (Split s (String c "")).
Proof.
  rewrite Split_splitLoop by discriminate. now apply splitLoop_byte_pieces.
Qed.

End SplitFacts.

(* ===================================================================== *)
(** ** The integers of [Atoi] *)
(* ===================================================================== *)

Section AtoiFacts.
Import strings strconv.

Lemma atoiFastLoop_bound (s : string) (acc n : Z) :
  0 <= acc -> atoiFastLoop s acc = Some n ->
  0 <= n /\ n + 1 <= (acc + 1) * 10 ^ Z.of_nat (len s).
Proof.
  revert acc. induction s as [|ch s IH]; intros acc Hacc H.
  - simpl in H. injection H as <-. simpl. lia.
  - cbn [atoiFastLoop] in H.
    set (d := (byteVal ch - 48) mod 256) in *.
    assert (0 <= d < 256) by (apply Z.mod_pos_bound; lia).
    destruct (9 <? d) eqn:Hd; [discriminate|].
    apply Z.ltb_ge in Hd.
    apply IH in H; [|lia]. destruct H as [Hn0 Hn1]. split; [exact Hn0|].
    unfold len in *. cbn [String.length].
    rewrite Nat2Z.inj_succ, Z.pow_succ_r by lia.
    assert (0 < 10 ^ Z.of_nat (String.length s)) by (apply Z.pow_pos_nonneg; lia).
    nia.
Qed.

Lemma parseUintLoop_nonneg (s : string) (acc : Z) :
  0 <= acc -> 0 <= fst (parseUintLoop s acc).
Proof.
  revert acc. induction s as [|c s IH]; intros acc Hacc; [exact Hacc|].
  cbn [parseUintLoop].
  destruct ((48 <=? byteVal c) && (byteVal c <=? 57)); [|simpl; lia].
  destruct (maxUint64 / 10 + 1 <=? acc); [vm_compute; discriminate|].
  match goal with |- context [if ?b then _ else _] => destruct b end;
    [vm_compute; discriminate|].
  apply IH. apply Z.mod_pos_bound. lia.
Qed.

Lemma ParseInt_range (s : string) (n : Z) :
  ParseInt s = inl n -> inIntRange n.
Proof.
  unfold ParseInt, inIntRange. destruct s as [|c rest]; [discriminate|].
  set (s := if isSign c then rest else String c rest).
  assert (Hun : 0 <= fst (ParseUint s)).
  { unfold ParseUint. destruct s; [simpl; lia|].
    apply parseUintLoop_nonneg. lia. }
  destruct (ParseUint s) as [un [[|]|]]; [discriminate| |];
    cbn [fst] in Hun; change (2 ^ (intSize - 1)) with (2 ^ 63);
    destruct (Ascii.eqb c "-"); cbn [negb andb];
    repeat match goal with
      | |- context [?a <=? ?b] => destruct (Z.leb_spec a b)
      | |- context [?a <? ?b] => destruct (Z.ltb_spec a b)
      end; try discriminate; intros [= <-]; lia.
Qed.

(** An integer that [Atoi] returns is in the range of [int]. *)
Lemma Atoi_range (s : string) (n : Z) : Atoi s = inl n -> inIntRange n.
Proof.
  unfold Atoi.
  destruct ((0 <? len s)%nat && (len s <? 19)%nat) eqn:Hlen.
  - apply andb_prop in Hlen as [_ Hlen]. apply Nat.ltb_lt in Hlen.
    destruct s as [|c rest]; [discriminate|].
    set (s := if isSign c then rest else String c rest).
    assert (Hs : (len s <= 18)%nat).
    { subst s. unfold len in *. cbn [String.length] in Hlen.
      destruct (isSign c); cbn [String.length]; lia. }
    destruct (len s <? 1)%nat; [discriminate|].
    destruct (atoiFastLoop s 0) as [m|] eqn:Hm; [|discriminate].
    apply atoiFastLoop_bound in Hm; [|lia].
    assert (10 ^ Z.of_nat (len s) <= 10 ^ 18)
      by (apply Z.pow_le_mono_r; lia).
    assert (10 ^ 18 < 2 ^ 63) by reflexivity.
    unfold inIntRange.
    destruct (Ascii.eqb c "-"); intros [= <-]; lia.
  - destruct (ParseInt s) as [i|e] eqn:E; [|discriminate].
    intros [= <-]. now apply (ParseInt_range s).
Qed.

End AtoiFacts.

(* ===================================================================== *)
(** ** What [Atoi] accepts *)
(* ===================================================================== *)

Section AtoiSpec.
Import strings strconv.

Lemma byteVal_range (c : ascii) : 0 <= byteVal c < 256.
Proof. unfold byteVal. pose proof (N_ascii_bounded c). lia. Qed.

Lemma digit_test (b : Z) :
  0 <= b < 256 ->
  (9 <? (b - 48) mod 256) = negb ((48 <=? b) && (b <=? 57))
  /\ (48 <= b -> (b - 48) mod 256 = b - 48).
Proof.
  intros Hb. destruct (Z.leb_spec 48 b) as [H48|H48].
  - rewrite Z.mod_small by lia. split; [|reflexivity].
    destruct (Z.ltb_spec 9 (b - 48)), (Z.leb_spec b 57); simpl; lia.
  - split; [|lia]. replace ((b - 48) mod 256) with (b + 208).
    + simpl. apply Z.ltb_lt. lia.
    + apply (Z.mod_unique _ _ (-1)); lia.
Qed.

Lemma atoiFastLoop_decimalValue (s : string) (acc : Z) :
  atoiFastLoop s acc = decimalValue s acc.
Proof.
  revert acc. induction s as [|c s IH]; intros acc; [reflexivity|].
  cbn [atoiFastLoop decimalValue].
  destruct (digit_test (byteVal c) (byteVal_range c)) as [Ht Hv].
  rewrite Ht.
  destruct ((48 <=? byteVal c) && (byteVal c <=? 57)) eqn:E; [|reflexivity].
  cbn [negb]. apply andb_prop in E as [E _]. apply Z.leb_le in E.
  now rewrite Hv, IH.
Qed.

Lemma decimalValue_ge (s : string) (acc v : Z) :
  0 <= acc -> decimalValue s acc = Some v -> acc <= v.
Proof.
  revert acc. induction s as [|c s IH]; intros acc Hacc H.
  - injection H as <-. lia.
  - cbn [decimalValue] in H.
    destruct ((48 <=? byteVal c) && (byteVal c <=? 57)) eqn:E; [|discriminate].
    apply andb_prop in E as [E1 E2]. apply Z.leb_le in E1.
    apply IH in H; lia.
Qed.

(** [ParseUint]'s loop returns the value of the digits, or a range error
    with the largest [uint64] when the value does not fit; a byte that is
    no digit gives an error. *)
Lemma parseUintLoop_spec (s : string) (acc : Z) :
  0 <= acc <= maxUint64 ->
  match decimalValue s acc with
  | Some v =>
      parseUintLoop s acc
      = if v <=? maxUint64 then (v, None) else (maxUint64, Some ErrRange)
  | None =>
      parseUintLoop s acc = (0, Some ErrSyntax)
      \/ parseUintLoop s acc = (maxUint64, Some ErrRange)
  end.
Proof.
  revert acc. induction s as [|c s IH]; intros acc Hacc.
  - cbn [decimalValue parseUintLoop].
    destruct (Z.leb_spec acc maxUint64); [reflexivity | lia].
  - cbn [decimalValue parseUintLoop].
    destruct ((48 <=? byteVal c) && (byteVal c <=? 57)) eqn:E; [|now left].
    apply andb_prop in E as [E1 E2].
    apply Z.leb_le in E1. apply Z.leb_le in E2.
    set (d := byteVal c - 48) in *.
    change (maxUint64 / 10 + 1) with 1844674407370955162.
    change maxUint64 with 18446744073709551615 in *.
    change (2 ^ 64) with 18446744073709551616.
    assert (Hmono : forall v, decimalValue s (acc * 10 + d) = Some v ->
                              acc * 10 + d <= v)
      by (intros v; apply decimalValue_ge; lia).
    destruct (Z.leb_spec 1844674407370955162 acc) as [Hc|Hc].
    { destruct (decimalValue s (acc * 10 + d)) as [v|] eqn:Ev; [|now right].
      specialize (Hmono v eq_refl).
      destruct (Z.leb_spec v 18446744073709551615); [lia | reflexivity]. }
    rewrite (Z.mod_small (acc * 10)) by lia.
    destruct (Z.le_gt_cases (acc * 10 + d) 18446744073709551615) as [Hfit|Hfit].
    + rewrite Z.mod_small by lia.
      destruct (Z.ltb_spec (acc * 10 + d) (acc * 10)); [lia|].
      destruct (Z.ltb_spec 18446744073709551615 (acc * 10 + d)); [lia|].
      cbn [orb]. apply IH. lia.
    + replace ((acc * 10 + d) mod 18446744073709551616)
        with (acc * 10 + d - 18446744073709551616)
        by (apply (Z.mod_unique _ _ 1); lia).
      destruct (Z.ltb_spec (acc * 10 + d - 18446744073709551616) (acc * 10));
        [|lia].
      cbn [orb].
      destruct (decimalValue s (acc * 10 + d)) as [v|] eqn:Ev; [|now right].
      specialize (Hmono v eq_refl).
      destruct (Z.leb_spec v 18446744073709551615); [lia | reflexivity].
Qed.

Lemma ParseInt_spec (s : string) :
  match ParseInt s with
  | inl n => specAtoi s = Some n
  | inr _ => specAtoi s = None
  end.
Proof.
  unfold ParseInt, specAtoi. destruct s as [|c rest]; [reflexivity|].
  set (body := if isSign c then rest else String c rest).
  change (2 ^ (intSize - 1)) with 9223372036854775808.
  change (2 ^ 63) with 9223372036854775808.
  destruct body as [|b body']; [reflexivity|].
  unfold ParseUint.
  pose proof (parseUintLoop_spec (String b body') 0 ltac:(vm_compute; split; discriminate)) as H.
  pose proof (decimalValue_ge (String b body') 0) as Hge.
  change maxUint64 with 18446744073709551615 in H.
  destruct (decimalValue (String b body') 0) as [v|].
  - specialize (Hge v ltac:(lia) eq_refl). rewrite H.
    destruct (Z.leb_spec v 18446744073709551615);
      destruct (Ascii.eqb c "-"); cbn [negb andb];
      repeat match goal with
        | |- context [?a <=? ?b] => destruct (Z.leb_spec a b)
        | |- context [?a <? ?b] => destruct (Z.ltb_spec a b)
        end; cbn [andb]; try reflexivity; lia.
  - destruct H as [-> | ->]; [reflexivity|].
    destruct (Ascii.eqb c "-"); reflexivity.
Qed.

(** [Atoi] accepts exactly the base-10 integers of [specAtoi], with their
    value. *)
Lemma Atoi_spec (s : string) :
  match Atoi s with
  | inl n => specAtoi s = Some n
  | inr _ => specAtoi s = None
  end.
Proof.
  unfold Atoi.
  destruct ((0 <? len s)%nat && (len s <? 19)%nat) eqn:Hlen.
  - apply andb_prop in Hlen as [_ Hlen]. apply Nat.ltb_lt in Hlen.
    unfold specAtoi. destruct s as [|c rest]; [reflexivity|].
    set (body := if isSign c then rest else String c rest).
    assert (Hb : (len body <= 18)%nat).
    { subst body. unfold len in *. cbn [String.length] in Hlen.
      destruct (isSign c); cbn [String.length]; lia. }
    destruct body as [|b body']; [reflexivity|].
    change (len (String b body') <? 1)%nat with false. cbv iota.
    rewrite atoiFastLoop_decimalValue.
    pose proof (atoiFastLoop_bound (String b body') 0) as Hbound.
    rewrite atoiFastLoop_decimalValue in Hbound.
    destruct (decimalValue (String b body') 0) as [v|]; [|reflexivity].
    specialize (Hbound v ltac:(lia) eq_refl).
    assert (10 ^ Z.of_nat (len (String b body')) <= 10 ^ 18)
      by (apply Z.pow_le_mono_r; lia).
    assert (10 ^ 18 < 2 ^ 63) by reflexivity.
    assert (Hr : forall n, - 2 ^ 63 <= n < 2 ^ 63 ->
                           (- 2 ^ 63 <=? n) && (n <? 2 ^ 63) = true).
    { intros n Hn. apply andb_true_intro.
      split; [apply Z.leb_le | apply Z.ltb_lt]; lia. }
    destruct (Ascii.eqb c "-"); cbv zeta; rewrite Hr by lia; reflexivity.
  - pose proof (ParseInt_spec s) as H.
    destruct (ParseInt s); exact H.
Qed.

(** [Atoi] returns an error exactly on what is no base-10 integer. *)
Lemma Atoi_rejects (s : string) :
  (exists e, Atoi s = inr e) <-> specAtoi s = None.
Proof.
  pose proof (Atoi_spec s) as H. destruct (Atoi s) as [n|e].
  - split; [intros [e He]; discriminate | congruence].
  - split; [intros _; exact H | eauto].
Qed.

End AtoiSpec.

(* ===================================================================== *)
(** ** The builder: [And], [Or], [AddAnd], [AddOr] *)
(* ===================================================================== *)

Section Builder.

(** C9. On a descriptor whose predicate is empty, [And] sets it to
    [" AND "] followed by the query and [Or] to [" OR "] followed by the
    query: the connector is written although nothing precedes it.
    [AddAnd] and [AddOr] leave an empty predicate as it is and append
    their connector only to a non-empty one. *)
Theorem C9_And_Or_write_leading_connector
    (w : WhereClause) (query : string) (args : list any) :
  Query w = "" ->
  Query (And w query args) = " AND " ++ query
  /\ Query (Or w query args) = " OR " ++ query
  /\ AddAnd w = w
  /\ AddOr w = w
  /\ (forall w' : WhereClause, Query w' <> "" ->
        Query (AddAnd w') = Query w' ++ " AND "
        /\ Query (AddOr w') = Query w' ++ " OR ").
Proof.
  intros Hq. unfold And, Or, AddAnd, AddOr. rewrite Hq. simpl.
  repeat split; try reflexivity.
  - intros. destruct (String.eqb_spec (Query w') ""); [contradiction | reflexivity].
  - intros. destruct (String.eqb_spec (Query w') ""); [contradiction | reflexivity].
Qed.

(** On the fresh descriptor of [NewWhereClause], whose predicate is empty. *)
Lemma C9_witness :
  Query NewWhereClause = ""
  /\ Query (And NewWhereClause "created_at > ?" [AnyString "2021-01-01"])
     = " AND created_at > ?"
  /\ Query (AddAnd NewWhereClause) = "".
Proof.
  split; [reflexivity|].
  pose proof (C9_And_Or_write_leading_connector NewWhereClause
                "created_at > ?" [AnyString "2021-01-01"] eq_refl) as H.
  destruct H as [HAnd [_ [HAddAnd _]]].
  split; [exact HAnd | now rewrite HAddAnd].
Defined.

End Builder.

(* ===================================================================== *)
(** ** Conditions and OR-groups *)
(* ===================================================================== *)

Section Conditions.
Import strings.

Lemma operatorOf_spec (sfx : string) : operatorOf sfx = specOperator (Some sfx).
Proof.
  unfold operatorOf, specOperator, specOperatorTable. cbn [find fst].
  rewrite !(String.eqb_sym _ sfx).
  repeat (destruct (String.eqb sfx _); [reflexivity|]). reflexivity.
Qed.

Lemma processCondition_key_value (key value : string) :
  countByte "="%char key = O ->
  processCondition (key ++ "=" ++ value) =
    (hd "" (SplitN key "__" 2) ++ " "
       ++ match SplitN key "__" 2 with
          | [_; suffix] => operatorOf suffix
          | _ => "="
          end ++ " ?",
     [AnyString value], None).
Proof.
  intros H. unfold processCondition.
  change (key ++ "=" ++ value) with (key ++ String "="%char value).
  now rewrite SplitN_byte_intro.
Qed.

Lemma processCondition_no_eq (piece : string) :
  countByte "="%char piece = O -> processCondition piece = ("", [], None).
Proof.
  intros H. unfold processCondition. now rewrite SplitN_byte_none.
Qed.

End Conditions.

Section OrGroups.
Import strings.

(** C6. A piece [field__suffix=value], cut at its first [=] and its key
    cut at its first [__], compiles to the fragment [field op ?] with
    the operator of the table ([=] when there is no suffix or an
    unrecognized one) and the single argument [value], kept as the raw
    string.  So ["a=1&b__gt=2"] compiles to the predicate
    ["(a = ?) AND (b > ?)"] with the arguments ["1"] and ["2"]. *)
Theorem C6_condition_fragment
    (field : string) (suffix : option string) (value : string) :
  countByte "="%char (conditionKey field suffix) = O ->
  Index (conditionKey field suffix) "__" =
    match suffix with Some _ => Some (len field) | None => None end ->
  processCondition (conditionKey field suffix ++ "=" ++ value) =
    (field ++ " " ++ specOperator suffix ++ " ?", [AnyString value], None)
  /\ BuildWhereClause "a=1&b__gt=2" =
       Ok (setArgs [AnyString "1"; AnyString "2"]
             (setQuery "(a = ?) AND (b > ?)" initialWhereClause)).
Proof.
  intros Heq Hidx. split; [|vm_compute; reflexivity].
  rewrite processCondition_key_value by exact Heq.
  rewrite SplitN_2, Hidx by discriminate.
  destruct suffix as [sfx|]; cbn [conditionKey hd].
  - rewrite sliceTo_app, sliceFrom_app2, operatorOf_spec. reflexivity.
  - reflexivity.
Qed.

(** A recognized suffix, an unrecognized one, and none. *)
Lemma C6_witness :
  processCondition "b__gt=2" = ("b > ?", [AnyString "2"], None)
  /\ processCondition "a__like=x" = ("a = ?", [AnyString "x"], None)
  /\ processCondition "a=1" = ("a = ?", [AnyString "1"], None).
Proof.
  split; [|split].
  - exact (proj1 (C6_condition_fragment "b" (Some "gt") "2" eq_refl eq_refl)).
  - exact (proj1 (C6_condition_fragment "a" (Some "like") "x" eq_refl eq_refl)).
  - exact (proj1 (C6_condition_fragment "a" None "1" eq_refl eq_refl)).
Defined.

(** The inner loop never fails. *)
Lemma orLoop_ok (l parts : list string) (args : list any) :
  exists parts' args', orLoop l parts args = Ok (parts', args').
Proof.
  revert parts args. induction l as [|p l IH]; intros parts args; simpl.
  - eauto.
  - destruct (processCondition p) as [[cond a] [err|]] eqn:E.
    + unfold processCondition in E.
      destruct (SplitN p "=" 2) as [|k [|v [|]]]; discriminate.
    + destruct (negb (String.eqb cond "")); apply IH.
Qed.

Lemma orGroupOf_ok (l : list string) (w : WhereClause) :
  exists w', orGroupOf l w = Ok w'.
Proof.
  unfold orGroupOf.
  destruct (orLoop_ok l [] (Args w)) as (parts & args & ->). simpl.
  destruct (0 <? length parts)%nat; eauto.
Qed.

Lemma orLoop_skip (g : string) (before after parts : list string)
    (args : list any) :
  countByte "="%char g = O ->
  orLoop (before ++ g :: after)%list parts args
  = orLoop (before ++ after)%list parts args.
Proof.
  intros Hg. revert parts args.
  induction before as [|p before IH]; intros parts args; simpl.
  - now rewrite processCondition_no_eq.
  - destruct (processCondition p) as [[cond a] [err|]]; [reflexivity|].
    destruct (negb (String.eqb cond "")); apply IH.
Qed.

(** C8. In an OR-group a fragment without [=] is dropped: it yields no
    fragment, no argument and no error, and the group is the one built
    from the other pieces; building a group never fails.  So
    ["a=1|garbage"] compiles to ["(a = ?)"] with the argument ["1"]. *)
Theorem C8_fragment_without_eq_is_dropped (g : string) :
  countByte "="%char g = O ->
  processCondition g = ("", [], None)
  /\ (forall (w : WhereClause) (before after : list string),
        orGroupOf (before ++ g :: after)%list w
        = orGroupOf (before ++ after)%list w)
  /\ (forall (w : WhereClause) (pieces : list string),
        exists w', orGroupOf pieces w = Ok w')
  /\ Split "a=1|garbage" "|" = ["a=1"; "garbage"]
  /\ BuildWhereClause "a=1|garbage" =
       Ok (setArgs [AnyString "1"] (setQuery "(a = ?)" initialWhereClause)).
Proof.
  intros Hg. split; [now apply processCondition_no_eq|].
  split; [|split; [|split; vm_compute; reflexivity]].
  - intros w before after. unfold orGroupOf. now rewrite orLoop_skip.
  - intros w pieces. apply orGroupOf_ok.
Qed.

(** The piece ["garbage"] after ["a=1"]. *)
Lemma C8_witness :
  orGroupOf ["a=1"; "garbage"] initialWhereClause
  = orGroupOf ["a=1"] initialWhereClause.
Proof.
  exact (proj1 (proj2 (C8_fragment_without_eq_is_dropped "garbage" eq_refl))
           initialWhereClause ["a=1"] []).
Defined.

End OrGroups.

(* ===================================================================== *)
(** ** One clause at a time *)
(* ===================================================================== *)

Section Clauses.
Import strings.

Lemma HasPrefix_before_byte (x : ascii) (a b p : string) :
  countByte x p = O -> HasPrefix (a ++ String x b) p = true ->
  HasPrefix a p = true.
Proof.
  revert a. induction p as [|y p IH]; intros a Hp H; [reflexivity|].
  simpl in Hp. destruct a as [|z a]; simpl in *.
  - destruct (Ascii.eqb_spec x y) as [->|]; [|discriminate].
    rewrite Ascii.eqb_refl in Hp. discriminate.
  - destruct (Ascii.eqb z y); [|discriminate].
    apply IH; [|exact H]. destruct (Ascii.eqb y x); [discriminate | exact Hp].
Qed.

Lemma HasPrefix_key_eq (c key : string) :
  countByte "="%char key = O -> HasPrefix c (key ++ "=") = true ->
  exists value, c = key ++ "=" ++ value /\ SplitN c "=" 2 = [key; value].
Proof.
  intros Hk H. apply HasPrefix_true in H.
  exists (sliceFrom (len (key ++ "=")) c).
  rewrite app_assoc_s in H. split; [exact H|].
  rewrite H at 1. now apply (SplitN_byte_intro "="%char).
Qed.

Lemma key_eq_HasPrefix (key value : string) :
  HasPrefix (key ++ "=" ++ value) (key ++ "=") = true.
Proof. rewrite <- app_assoc_s. apply HasPrefix_app. Qed.

Lemma preload_fold (l : list string) (w : WhereClause) :
  fold_left (fun w d => setPreload (Preload w ++ [d]) w) l w
  = setPreload (Preload w ++ l) w.
Proof.
  revert w. induction l as [|d l IH]; intros w.
  - simpl. rewrite app_nil_r. now destruct w.
  - simpl. rewrite IH. destruct w; unfold setPreload; simpl.
    now rewrite <- app_assoc.
Qed.

Lemma directiveKeys_no_eq (key : string) :
  In key (sortKeys ++ paginationKeys)%list -> countByte "="%char key = O.
Proof.
  simpl. intros H. repeat (destruct H as [<-|H]; [reflexivity|]). destruct H.
Qed.

Lemma beginsWithDirectiveKey_false (c key value : string) :
  SplitN c "=" 2 = [key; value] ->
  ~ In key (sortKeys ++ paginationKeys)%list ->
  beginsWithDirectiveKey c = false.
Proof.
  intros E Hk. unfold beginsWithDirectiveKey.
  apply not_true_is_false. intros H. apply existsb_exists in H.
  destruct H as (k & Hin & Hp).
  pose proof (directiveKeys_no_eq k Hin) as Hc.
  destruct (HasPrefix_key_eq c k Hc Hp) as (v & _ & E').
  rewrite E in E'. injection E' as -> _. contradiction.
Qed.

Lemma beginsWithDirectiveKey_false_one (c : string) :
  (forall key value, SplitN c "=" 2 <> [key; value]) ->
  beginsWithDirectiveKey c = false.
Proof.
  intros E. unfold beginsWithDirectiveKey.
  apply not_true_is_false. intros H. apply existsb_exists in H.
  destruct H as (k & Hin & Hp).
  pose proof (directiveKeys_no_eq k Hin) as Hc.
  destruct (HasPrefix_key_eq c k Hc Hp) as (v & _ & E').
  now apply E in E'.
Qed.

Lemma clauseBody_kind (w : WhereClause) (c : string) :
  stepKind w c (clauseBody w c).
Proof.
  unfold clauseBody.
  destruct (String.eqb_spec c "") as [->|Hne]; [apply StepSkip; now left|].
  destruct (HasPrefix c "useData") eqn:HuD; [apply StepSkip; auto|].
  destruct (HasPrefix c "useCache") eqn:HuC; [apply StepSkip; auto|].
  destruct (HasPrefix c "with_") eqn:Hw.
  { unfold TrimPrefix. rewrite Hw, preload_fold.
    apply StepPreload. now apply HasPrefix_true in Hw. }
  unfold sortOrPagination.
  destruct (SplitN c "=" 2) as [|key [|value [|x l]]] eqn:E;
    try (apply StepOrGroup, beginsWithDirectiveKey_false_one;
         intros; congruence).
  destruct (SplitN_byte_elim _ _ _ _ E) as [Hc Hkey].
  destruct (String.eqb_spec key "orderByASC") as [->|Ha];
    [now apply StepSortAsc|].
  destruct (String.eqb_spec key "orderByDESC") as [->|Hd];
    [now apply StepSortDesc|].
  destruct (String.eqb_spec key "limit") as [->|Hl];
    [apply StepPagination; [simpl; auto | exact Hc]|].
  destruct (String.eqb_spec key "offset") as [->|Ho];
    [apply StepPagination; [simpl; auto | exact Hc]|].
  destruct (String.eqb_spec key "page") as [->|Hp];
    [apply StepPagination; [simpl; auto | exact Hc]|].
  destruct (String.eqb_spec key "pageSize") as [->|Hps];
    [apply StepPagination; [simpl; auto 6 | exact Hc]|].
  simpl. apply StepOrGroup.
  apply (beginsWithDirectiveKey_false c key value E).
  simpl. intuition congruence.
Qed.

(** Every iteration is of one of the seven kinds. *)
Lemma clauseStep_kind (w : WhereClause) (c : string) :
  stepKind w c (clauseStep w c).
Proof.
  unfold clauseStep.
  destruct (HasPrefix c "agg__") eqn:Hagg; [|apply clauseBody_kind].
  destruct (SplitN c "=" 2) as [|a [|fields [|x l]]] eqn:E;
    try apply clauseBody_kind.
  destruct (SplitN_byte_elim _ _ _ _ E) as [Hc Ha].
  rewrite Hc in Hagg. apply HasPrefix_before_byte in Hagg; [|reflexivity].
  unfold TrimPrefix. rewrite Hagg.
  apply HasPrefix_true in Hagg.
  apply StepAggregate.
  - rewrite Hc. rewrite Hagg at 1. now rewrite app_assoc_s.
  - rewrite Hagg in Ha. rewrite countByte_app in Ha. lia.
Qed.

End Clauses.

(* ===================================================================== *)
(** ** Aggregate directives *)
(* ===================================================================== *)

Section AggregateDirectives.
Import strings.

Lemma clauseStep_aggregate (w : WhereClause) (fn fields : string) :
  countByte "="%char fn = O ->
  clauseStep w ("agg__" ++ fn ++ "=" ++ fields)
  = assignAggregate w fn (Split fields "|").
Proof.
  intros Hfn. unfold clauseStep.
  rewrite HasPrefix_app.
  change ("agg__" ++ fn ++ "=" ++ fields)
    with (("agg__" ++ fn) ++ String "="%char fields).
  rewrite SplitN_byte_intro by (rewrite countByte_app; simpl; lia).
  unfold TrimPrefix. now rewrite HasPrefix_app.
Qed.

(** C7. A clause [agg__fn=fields] records, under the function name [fn],
    the list of the [|]-separated field names, and changes nothing else
    of the descriptor (neither the predicate nor the arguments); a later
    clause with the same name replaces the entry.  So
    ["agg__sum=amount|tax"] compiles to the aggregates
    [{"sum": ["amount","tax"]}] with an empty predicate and no argument. *)
Theorem C7_aggregate_directive
    (w : WhereClause) (m : gmap string (list string))
    (fn fields later : string) :
  Aggregates w = Some m ->
  countByte "="%char fn = O ->
  clauseStep w ("agg__" ++ fn ++ "=" ++ fields)
    = Ok (setAggregates (Some (<[fn := Split fields "|"]> m)) w)
  /\ (w' ← clauseStep w ("agg__" ++ fn ++ "=" ++ fields);
      clauseStep w' ("agg__" ++ fn ++ "=" ++ later))
     = Ok (setAggregates (Some (<[fn := Split later "|"]> m)) w)
  /\ BuildWhereClause "agg__sum=amount|tax"
     = Ok (setAggregates (Some {[ "sum" := ["amount"; "tax"] ]}) zeroWhereClause)
  /\ BuildWhereClause "agg__sum=amount&agg__sum=tax|fee"
     = Ok (setAggregates (Some {[ "sum" := ["tax"; "fee"] ]}) zeroWhereClause).
Proof.
  intros Hm Hfn.
  assert (H1 : clauseStep w ("agg__" ++ fn ++ "=" ++ fields)
               = Ok (setAggregates (Some (<[fn := Split fields "|"]> m)) w)).
  { rewrite clauseStep_aggregate by exact Hfn.
    unfold assignAggregate. now rewrite Hm. }
  split; [exact H1|]. split; [|split; vm_compute; reflexivity].
  rewrite H1. cbn [mbind outcome_bind].
  rewrite clauseStep_aggregate by exact Hfn.
  unfold assignAggregate. cbn [Aggregates setAggregates].
  rewrite insert_insert_eq. reflexivity.
Qed.

(** The clause ["agg__count=id"] on the fresh descriptor of the compiler. *)
Lemma C7_witness :
  clauseStep initialWhereClause "agg__count=id"
  = Ok (setAggregates (Some (<["count" := ["id"]]> ∅)) initialWhereClause).
Proof.
  exact (proj1 (C7_aggregate_directive initialWhereClause ∅
                  "count" "id" "id" eq_refl eq_refl)).
Defined.

End AggregateDirectives.

(* ===================================================================== *)
(** ** The outcomes of one iteration *)
(* ===================================================================== *)

Section StepOutcomes.
Import strings.

(** The seven kinds of an iteration whose outcome is known. *)
Ltac stepKind_cases K :=
  inversion K as [fn fields Hc Hfn Hr | Hc Hr | rest Hc Hr | value Hc Hr
                 | value Hc Hr | key value Hk Hc Hr | Hc Hr]; subst.

Lemma orGroupOf_frame (l : list string) (w w' : WhereClause) :
  orGroupOf l w = Ok w' -> w' = setQuery (Query w') (setArgs (Args w') w).
Proof.
  unfold orGroupOf.
  destruct (orLoop_ok l [] (Args w)) as (parts & args & ->).
  cbn [mbind outcome_bind].
  destruct (0 <? length parts)%nat; [|intros [= <-]; now destruct w].
  cbn [Query setArgs].
  destruct (negb (String.eqb (Query w) "")); intros [= <-]; now destruct w.
Qed.

Lemma setPaginationField_cases (w : WhereClause) (key value : string) :
  In key paginationKeys ->
  match strconv.Atoi value with
  | inr err => setPaginationField w key value = Err err
  | inl n =>
      setPaginationField w key value
      = Ok (if String.eqb key "limit" then setLimit n w
            else if String.eqb key "offset" then setOffset n w
            else if String.eqb key "page" then setPage n w
            else setPageSize n w)
  end.
Proof.
  intros Hk. unfold setPaginationField.
  destruct (strconv.Atoi value) as [n|err]; [|reflexivity].
  simpl in Hk. destruct Hk as [<-|[<-|[<-|[<-|[]]]]]; reflexivity.
Qed.

Lemma clauseStep_Ok (w : WhereClause) (c : string) (w' : WhereClause) :
  clauseStep w c = Ok w' -> stepOk w c w'.
Proof.
  intros H. pose proof (clauseStep_kind w c) as K. rewrite H in K.
  stepKind_cases K.
  - unfold assignAggregate in Hr.
    destruct (Aggregates w) as [m|] eqn:Hm; [|discriminate].
    injection Hr as <-. now apply OkAggregate.
  - now apply OkSkip.
  - now apply OkPreload.
  - now apply OkSortAsc.
  - now apply OkSortDesc.
  - pose proof (setPaginationField_cases w key value Hk) as Hp.
    destruct (strconv.Atoi value) as [n|err] eqn:Ha; [|congruence].
    rewrite Hp in Hr. injection Hr as <-.
    simpl in Hk. destruct Hk as [<-|[<-|[<-|[<-|[]]]]]; simpl.
    + now apply (OkLimit _ _ value).
    + now apply (OkOffset _ _ value).
    + now apply (OkPage _ _ value).
    + now apply (OkPageSize _ _ value).
  - pose proof (orGroupOf_frame _ _ _ Hr) as Hf.
    rewrite Hf. apply OkOrGroup; [assumption|]. now rewrite <- Hf.
Qed.

(** An iteration returns an error only at a pagination key whose value
    [Atoi] rejects. *)
Lemma clauseStep_Err (w : WhereClause) (c : string) (e : error) :
  clauseStep w c = Err e ->
  exists key value, In key paginationKeys /\ c = key ++ "=" ++ value
                    /\ strconv.Atoi value = inr e.
Proof.
  intros H. pose proof (clauseStep_kind w c) as K. rewrite H in K.
  stepKind_cases K.
  - unfold assignAggregate in Hr. destruct (Aggregates w); discriminate.
  - pose proof (setPaginationField_cases w key value Hk) as Hp.
    destruct (strconv.Atoi value) as [n|err] eqn:Ha; [congruence|].
    exists key, value. repeat split; [assumption|congruence].
  - destruct (orGroupOf_ok (Split c "|") w) as [w' Hw'].
    unfold orGroup in Hr. congruence.
Qed.

(** An iteration panics only when the aggregates map is nil. *)
Lemma clauseStep_Panic (w : WhereClause) (c msg : string) :
  clauseStep w c = Panic msg -> Aggregates w = None.
Proof.
  intros H. pose proof (clauseStep_kind w c) as K. rewrite H in K.
  stepKind_cases K.
  - unfold assignAggregate in Hr. now destruct (Aggregates w).
  - pose proof (setPaginationField_cases w key value Hk) as Hp.
    destruct (strconv.Atoi value); congruence.
  - destruct (orGroupOf_ok (Split c "|") w) as [w' Hw'].
    unfold orGroup in Hr. congruence.
Qed.

(** The aggregates map stays allocated. *)
Lemma stepOk_Aggregates (w : WhereClause) (c : string) (w' : WhereClause) :
  stepOk w c w' ->
  Aggregates w' = Aggregates w
  \/ isAggregateDirective c = true /\ is_Some (Aggregates w').
Proof.
  intros [fn fields m Hc Hfn Hm| | | | | | | | |]; try (left; reflexivity).
  right. split; [|simpl; eauto].
  unfold isAggregateDirective. rewrite Hc, HasPrefix_app.
  rewrite !countByte_app. simpl.
  now rewrite Nat.add_succ_r.
Qed.

(** Invariants of the loop over the clauses. *)
Lemma rangeLoop_invariant (P : WhereClause -> Prop) (Q : string -> Prop) :
  (forall w c w', Q c -> P w -> clauseStep w c = Ok w' -> P w') ->
  forall l w w', Forall Q l -> P w -> rangeLoop l w = Ok w' -> P w'.
Proof.
  intros Hstep l. induction l as [|c l IH]; intros w w' Hl Hw H.
  - simpl in H. now injection H as <-.
  - simpl in H. inversion Hl as [|? ? Hc Hl']; subst.
    destruct (clauseStep w c) as [w1| |] eqn:E; try discriminate.
    cbn [mbind outcome_bind] in H.
    apply (IH w1 w'); eauto.
Qed.

End StepOutcomes.

Section Pagination.
Import strings.

Lemma key_value_unique (k1 k2 v1 v2 : string) :
  countByte "="%char k1 = O -> countByte "="%char k2 = O ->
  k1 ++ "=" ++ v1 = k2 ++ "=" ++ v2 -> k1 = k2 /\ v1 = v2.
Proof.
  intros H1 H2 E.
  pose proof (SplitN_byte_intro "="%char k1 v1 H1) as S1.
  pose proof (SplitN_byte_intro "="%char k2 v2 H2) as S2.
  change (String "="%char v1) with ("=" ++ v1) in S1.
  change (String "="%char v2) with ("=" ++ v2) in S2.
  rewrite E, S2 in S1. now injection S1 as -> ->.
Qed.

Lemma paginationKeys_no_eq (key : string) :
  In key paginationKeys -> countByte "="%char key = O.
Proof.
  simpl. intros [<-|[<-|[<-|[<-|[]]]]]; reflexivity.
Qed.

Lemma clauseStep_pagination (w : WhereClause) (key value : string) :
  In key paginationKeys ->
  clauseStep w (key ++ "=" ++ value) = setPaginationField w key value.
Proof.
  intros Hk.
  assert (HS : SplitN (key ++ "=" ++ value) "=" 2 = [key; value])
    by (apply (SplitN_byte_intro "="%char), paginationKeys_no_eq, Hk).
  unfold clauseStep, clauseBody, sortOrPagination. rewrite HS.
  simpl in Hk. destruct Hk as [<-|[<-|[<-|[<-|[]]]]]; reflexivity.
Qed.

End Pagination.

(* ===================================================================== *)
(** ** Sort and pagination directives, and what reaches the OR-group *)
(* ===================================================================== *)

Section Directives.
Import strings.

Lemma isAggregateDirective_intro (fn fields : string) :
  isAggregateDirective ("agg__" ++ fn ++ "=" ++ fields) = true.
Proof.
  unfold isAggregateDirective. rewrite HasPrefix_app, !countByte_app.
  simpl. now rewrite Nat.add_succ_r.
Qed.

Lemma beginsWithDirectiveKey_iff (c : string) :
  beginsWithDirectiveKey c = true <->
  exists key value, In key (sortKeys ++ paginationKeys)%list
                    /\ c = key ++ "=" ++ value.
Proof.
  unfold beginsWithDirectiveKey. rewrite existsb_exists. split.
  - intros (key & Hin & Hp). exists key.
    pose proof (directiveKeys_no_eq key Hin) as Hc.
    destruct (HasPrefix_key_eq c key Hc Hp) as (value & -> & _). eauto.
  - intros (key & value & Hin & ->). exists key.
    split; [exact Hin | apply key_eq_HasPrefix].
Qed.

Lemma clauseStep_sort (w : WhereClause) (value : string) :
  clauseStep w ("orderByASC=" ++ value) = Ok (setOrderByASC value w)
  /\ clauseStep w ("orderByDESC=" ++ value) = Ok (setOrderByDESC value w).
Proof.
  pose proof (SplitN_byte_intro "="%char "orderByASC" value eq_refl) as HA.
  pose proof (SplitN_byte_intro "="%char "orderByDESC" value eq_refl) as HD.
  split; unfold clauseStep, clauseBody, sortOrPagination.
  - change ("orderByASC=" ++ value)
      with ("orderByASC" ++ String "="%char value).
    rewrite HA. reflexivity.
  - change ("orderByDESC=" ++ value)
      with ("orderByDESC" ++ String "="%char value).
    rewrite HD. reflexivity.
Qed.

Lemma clauseStep_falls_through (w : WhereClause) (c : string) :
  beginsWithDirectiveKey c = false -> earlierDirective c = false ->
  clauseStep w c = orGroup w c.
Proof.
  intros Hb He. unfold earlierDirective in He.
  apply orb_false_elim in He as [He Hwith].
  apply orb_false_elim in He as [He HuC].
  apply orb_false_elim in He as [He HuD].
  apply orb_false_elim in He as [Hagg Hempty].
  assert (Hkey : forall key value,
             In key (sortKeys ++ paginationKeys)%list ->
             c <> key ++ "=" ++ value).
  { intros key value Hin ->.
    assert (beginsWithDirectiveKey (key ++ "=" ++ value) = true)
      by (apply beginsWithDirectiveKey_iff; eauto).
    congruence. }
  pose proof (clauseStep_kind w c) as K.
  remember (clauseStep w c) as r eqn:Er.
  destruct K as [fn fields Hc Hfn | Hc | rest Hc | value Hc | value Hc
                | key value Hk Hc | Hc].
  - rewrite Hc, isAggregateDirective_intro in Hagg. discriminate.
  - destruct Hc as [->|[Hc|Hc]]; [discriminate | congruence | congruence].
  - rewrite Hc in Hwith. discriminate.
  - exfalso. apply (Hkey "orderByASC" value); [simpl; auto | exact Hc].
  - exfalso. apply (Hkey "orderByDESC" value); [simpl; auto | exact Hc].
  - exfalso. apply (Hkey key value); [|exact Hc].
    apply in_or_app. now right.
  - reflexivity.
Qed.

(** C4, as the code has it.  A sort or pagination directive is a clause
    that begins with [key=] for one of the six keys: the key is the text
    before the first [=] and the value all that follows it, [|] and
    further [=] included.  Such a clause never reaches the OR-group: the
    sort keys store the value as it is, the pagination keys hand it to
    [Atoi].  A clause that does not begin with [key=] for one of the six
    keys, and that none of the earlier tests takes, is an OR-group. *)
Theorem C4_directive_is_key_before_first_eq
    (w : WhereClause) (c value : string) :
  clauseStep w ("orderByASC=" ++ value) = Ok (setOrderByASC value w)
  /\ clauseStep w ("orderByDESC=" ++ value) = Ok (setOrderByDESC value w)
  /\ clauseStep w ("limit=" ++ value)
     = match strconv.Atoi value with
       | inl n => Ok (setLimit n w) | inr e => Err e end
  /\ clauseStep w ("offset=" ++ value)
     = match strconv.Atoi value with
       | inl n => Ok (setOffset n w) | inr e => Err e end
  /\ clauseStep w ("page=" ++ value)
     = match strconv.Atoi value with
       | inl n => Ok (setPage n w) | inr e => Err e end
  /\ clauseStep w ("pageSize=" ++ value)
     = match strconv.Atoi value with
       | inl n => Ok (setPageSize n w) | inr e => Err e end
  /\ (beginsWithDirectiveKey c = true <->
      exists key rest, In key (sortKeys ++ paginationKeys)%list
                       /\ c = key ++ "=" ++ rest)
  /\ (beginsWithDirectiveKey c = false -> earlierDirective c = false ->
      clauseStep w c = orGroup w c).
Proof.
  destruct (clauseStep_sort w value) as [HA HD].
  split; [exact HA|]. split; [exact HD|].
  assert (HP : forall key, In key paginationKeys ->
             clauseStep w (key ++ "=" ++ value)
             = setPaginationField w key value)
    by (intros; now apply clauseStep_pagination).
  split; [|split; [|split; [|split; [|split]]]].
  - change ("limit=" ++ value) with ("limit" ++ "=" ++ value).
    rewrite HP by (simpl; auto). unfold setPaginationField.
    now destruct (strconv.Atoi value).
  - change ("offset=" ++ value) with ("offset" ++ "=" ++ value).
    rewrite HP by (simpl; auto). unfold setPaginationField.
    now destruct (strconv.Atoi value).
  - change ("page=" ++ value) with ("page" ++ "=" ++ value).
    rewrite HP by (simpl; auto). unfold setPaginationField.
    now destruct (strconv.Atoi value).
  - change ("pageSize=" ++ value) with ("pageSize" ++ "=" ++ value).
    rewrite HP by (simpl; auto 6). unfold setPaginationField.
    now destruct (strconv.Atoi value).
  - apply beginsWithDirectiveKey_iff.
  - apply clauseStep_falls_through.
Qed.

(** The clause ["a=1|limit=2"] does not begin with a directive key and
    is an OR-group; ["orderByASC=x|a=2"] is a sort directive whose value
    is ["x|a=2"]. *)
Lemma C4_witness :
  clauseStep initialWhereClause "a=1|limit=2"
  = orGroup initialWhereClause "a=1|limit=2"
  /\ clauseStep initialWhereClause "orderByASC=x|a=2"
     = Ok (setOrderByASC "x|a=2" initialWhereClause).
Proof.
  pose proof (C4_directive_is_key_before_first_eq
                initialWhereClause "a=1|limit=2" "x|a=2") as H.
  split.
  - apply H; reflexivity.
  - apply H.
Defined.

(** C4, as the claim words it, fails at ["limit=1|a=2"]: the clause is
    not of the shape [key=value] with further alternatives set aside,
    yet it is taken as a [limit] directive with the value ["1|a=2"],
    which [Atoi] rejects, where the OR-group of the same clause would
    have been ["(limit = ? OR a = ?)"]. *)
Lemma C4_counterexample :
  BuildWhereClause "limit=1|a=2"
  = Err (strconv.syntaxError "Atoi" "1|a=2")
  /\ orGroup initialWhereClause "limit=1|a=2"
     = Ok (setArgs [AnyString "1"; AnyString "2"]
             (setQuery "(limit = ? OR a = ?)" initialWhereClause))
  /\ clauseStep initialWhereClause "limit=1|a=2"
     <> orGroup initialWhereClause "limit=1|a=2".
Proof.
  split; [vm_compute; reflexivity|].
  split; [vm_compute; reflexivity|].
  vm_compute. discriminate.
Qed.

End Directives.

(* ===================================================================== *)
(** ** When compilation fails *)
(* ===================================================================== *)

Section Failure.
Import strings.

Lemma rejectedPagination_Err (w : WhereClause) (c : string) :
  rejectedPagination c -> exists e, clauseStep w c = Err e.
Proof.
  intros (key & value & Hk & -> & He).
  apply Atoi_rejects in He as [e He]. exists e.
  rewrite clauseStep_pagination by exact Hk.
  unfold setPaginationField. now rewrite He.
Qed.

Lemma rangeLoop_outcome (l : list string) (w : WhereClause) :
  is_Some (Aggregates w) ->
  ((exists e, rangeLoop l w = Err e) <-> Exists rejectedPagination l)
  /\ (forall msg, rangeLoop l w <> Panic msg).
Proof.
  revert w. induction l as [|c l IH]; intros w Hw.
  - simpl. split; [|discriminate]. split.
    + intros [e He]. discriminate.
    + intros H. inversion H.
  - cbn [rangeLoop]. destruct (clauseStep w c) as [w1|e|msg] eqn:E;
      cbn [mbind outcome_bind].
    + assert (Hw1 : is_Some (Aggregates w1)).
      { destruct (stepOk_Aggregates _ _ _ (clauseStep_Ok _ _ _ E))
          as [->|[_ H]]; assumption. }
      destruct (IH w1 Hw1) as [IHe IHp]. split; [|exact IHp].
      rewrite IHe. split; [now right|].
      intros H. inversion H as [? ? Hc|]; [|assumption]. subst.
      destruct (rejectedPagination_Err w c Hc) as [e He]. congruence.
    + split; [|discriminate]. split; [|eauto].
      intros _. left. apply clauseStep_Err in E.
      destruct E as (key & value & Hk & Hc & He).
      exists key, value. repeat split; [assumption | assumption |].
      apply Atoi_rejects. eauto.
    + apply clauseStep_Panic in E. rewrite E in Hw.
      destruct Hw as [? Hw]. discriminate.
Qed.

(** C3. Compilation returns an error exactly when some clause is a
    pagination directive ([limit], [offset], [page] or [pageSize],
    followed by [=]) whose value is no base-10 integer (an optional
    sign and decimal digits, within the range of [int]); nothing else
    makes it fail, and it never panics.  ["limit=abc"] fails with the
    syntax error of [Atoi]. *)
Theorem C3_error_iff_rejected_pagination (s : string) :
  ((exists e, BuildWhereClause s = Err e) <->
   (exists c, In c (Split s "&") /\ rejectedPagination c))
  /\ (forall msg, BuildWhereClause s <> Panic msg)
  /\ BuildWhereClause "limit=abc" = Err (strconv.syntaxError "Atoi" "abc").
Proof.
  unfold BuildWhereClause.
  assert (H0 : is_Some (Aggregates (setAggregates (Some ∅) zeroWhereClause)))
    by (simpl; eauto).
  destruct (rangeLoop_outcome (Split s "&") _ H0) as [He Hp].
  split; [|split; [exact Hp | vm_compute; reflexivity]].
  rewrite He, List.Exists_exists. reflexivity.
Qed.

End Failure.

(* ===================================================================== *)
(** ** The aggregates map: allocated by the compiler, nil in the builder *)
(* ===================================================================== *)

Section AggregatesMap.
Import strings.

Lemma forallb_Forall {A : Type} (f : A -> bool) (l : list A) :
  forallb f l = true -> Forall (fun x => f x = true) l.
Proof.
  induction l as [|x l IH]; simpl; intros H; constructor.
  - now apply andb_prop in H.
  - apply IH. now apply andb_prop in H.
Qed.

(** C10. A descriptor returned by the compiler has an allocated
    aggregates map, which is empty when no clause of the input is an
    aggregate directive; a descriptor made by [NewWhereClause] or by
    [NewWhere] has the nil map. *)
Theorem C10_Aggregates_allocated (s : string) (w : WhereClause) :
  BuildWhereClause s = Ok w ->
  (exists m, Aggregates w = Some m
             /\ (noAggregateDirective s = true -> m = ∅))
  /\ Aggregates NewWhereClause = None
  /\ (forall query args limit offset,
        Aggregates (NewWhere query args limit offset) = None).
Proof.
  intros H. unfold BuildWhereClause in H.
  split; [|split; reflexivity].
  assert (Hsome : is_Some (Aggregates w)).
  { apply (rangeLoop_invariant (fun w => is_Some (Aggregates w))
             (fun _ => True)) with (4 := H).
    - intros w0 c w1 _ Hw0 E.
      destruct (stepOk_Aggregates _ _ _ (clauseStep_Ok _ _ _ E))
        as [->|[_ Hs]]; assumption.
    - apply Forall_forall. intros; exact I.
    - simpl. eauto. }
  destruct Hsome as [m Hm]. exists m. split; [exact Hm|].
  intros Hno. unfold noAggregateDirective in Hno.
  apply forallb_Forall in Hno.
  assert (He : Aggregates w = Some ∅).
  { apply (rangeLoop_invariant (fun w => Aggregates w = Some ∅)
             (fun c => negb (isAggregateDirective c) = true))
      with (2 := Hno) (4 := H).
    - intros w0 c w1 Hc Hw0 E.
      destruct (stepOk_Aggregates _ _ _ (clauseStep_Ok _ _ _ E))
        as [->|[Hagg _]]; [assumption|].
      rewrite Hagg in Hc. discriminate.
    - reflexivity. }
  congruence.
Qed.

(** The input ["a=1"], which has no aggregate directive. *)
Lemma C10_witness :
  exists m, Aggregates (setArgs [AnyString "1"]
                          (setQuery "(a = ?)" initialWhereClause)) = Some m
            /\ (noAggregateDirective "a=1" = true -> m = ∅).
Proof.
  exact (proj1 (C10_Aggregates_allocated "a=1"
                  (setArgs [AnyString "1"]
                     (setQuery "(a = ?)" initialWhereClause))
                  eq_refl)).
Defined.

End AggregatesMap.

(* ===================================================================== *)
(** ** Preload directives *)
(* ===================================================================== *)

Section PreloadDirectives.
Import strings.

Lemma clauseStep_preload (w : WhereClause) (rest : string) :
  clauseStep w ("with_" ++ rest)
  = Ok (setPreload (Preload w ++ Split rest "|") w).
Proof.
  unfold clauseStep, clauseBody, TrimPrefix. simpl.
  now rewrite preload_fold.
Qed.

(** C1, on the code.  The prefix [with_] is removed once, from the
    clause, and the remainder is split on [|]: the names are appended in
    order, and a later alternative keeps a [with_] of its own.  So
    ["with_team|with_friends"] compiles to the preload list
    ["team"], ["with_friends"] (and not ["team"], ["friends"]), with an
    empty predicate. *)
Theorem C1_preload_prefix_removed_once :
  BuildWhereClause "with_team|with_friends"
  = Ok (setPreload ["team"; "with_friends"] initialWhereClause)
  /\ Query (setPreload ["team"; "with_friends"] initialWhereClause) = ""
  /\ ["team"; "with_friends"] <> ["team"; "friends"]
  /\ (forall (w : WhereClause) (rest : string),
        clauseStep w ("with_" ++ rest)
        = Ok (setPreload (Preload w ++ Split rest "|") w)).
Proof.
  split; [vm_compute; reflexivity|].
  split; [reflexivity|].
  split; [discriminate|].
  apply clauseStep_preload.
Qed.

End PreloadDirectives.

(* ===================================================================== *)
(** ** The pagination fields *)
(* ===================================================================== *)

Section PaginationFields.
Import strings.

Lemma stepOk_range (w : WhereClause) (c : string) (w' : WhereClause) :
  stepOk w c w' -> fieldsInRange w -> fieldsInRange w'.
Proof.
  intros [] (Hl & Ho & Hp & Hs); unfold fieldsInRange; simpl;
    (split; [|split; [|split]]); try assumption;
    eapply Atoi_range; eassumption.
Qed.

(** A clause that does not begin with [key=] leaves the field of [key]
    as it was. *)
Lemma stepOk_unset (w : WhereClause) (c : string) (w' : WhereClause) :
  stepOk w c w' ->
  (HasPrefix c "limit=" = false -> Limit w' = Limit w)
  /\ (HasPrefix c "offset=" = false -> Offset w' = Offset w)
  /\ (HasPrefix c "page=" = false -> Page w' = Page w)
  /\ (HasPrefix c "pageSize=" = false -> PageSize w' = PageSize w).
Proof.
  intros []; simpl; repeat split; intros Hp; try reflexivity;
    subst c; simpl in Hp; discriminate Hp.
Qed.

Lemma existsb_false_Forall {A : Type} (f : A -> bool) (l : list A) :
  existsb f l = false -> Forall (fun x => f x = false) l.
Proof.
  induction l as [|x l IH]; simpl; intros H; constructor.
  - now apply orb_false_elim in H.
  - apply IH. now apply orb_false_elim in H.
Qed.

Lemma rangeLoop_unset (get : WhereClause -> Z) (key : string)
    (l : list string) (w w' : WhereClause) :
  (forall w c w', stepOk w c w' ->
                  HasPrefix c (key ++ "=") = false -> get w' = get w) ->
  existsb (fun c => HasPrefix c (key ++ "=")) l = false ->
  rangeLoop l w = Ok w' -> get w' = get w.
Proof.
  intros Hstep Hl H. apply existsb_false_Forall in Hl.
  apply (rangeLoop_invariant (fun w0 => get w0 = get w)
           (fun c => HasPrefix c (key ++ "=") = false))
    with (2 := Hl) (4 := H); [|reflexivity].
  intros w0 c w1 Hc Hw0 E. rewrite <- Hw0.
  apply (Hstep w0 c w1); [now apply clauseStep_Ok | exact Hc].
Qed.

(** C5, as the code has it.  After a successful compilation the four
    pagination fields are integers of the range of [int], of either
    sign: each is what [Atoi] returned for the last directive of its
    key, and zero when no clause begins with [key=]. *)
Theorem C5_pagination_fields_are_ints (s : string) (w : WhereClause) :
  BuildWhereClause s = Ok w ->
  (inIntRange (Limit w) /\ inIntRange (Offset w)
   /\ inIntRange (Page w) /\ inIntRange (PageSize w))
  /\ (hasDirective "limit" s = false -> Limit w = 0)
  /\ (hasDirective "offset" s = false -> Offset w = 0)
  /\ (hasDirective "page" s = false -> Page w = 0)
  /\ (hasDirective "pageSize" s = false -> PageSize w = 0).
Proof.
  intros H. unfold BuildWhereClause in H. split.
  - apply (rangeLoop_invariant fieldsInRange (fun _ => True))
      with (4 := H).
    + intros w0 c w1 _ Hw0 E.
      exact (stepOk_range _ _ _ (clauseStep_Ok _ _ _ E) Hw0).
    + apply Forall_forall. intros; exact I.
    + unfold fieldsInRange, inIntRange. simpl. lia.
  - unfold hasDirective. repeat split; intros Hno.
    + apply (rangeLoop_unset Limit "limit" _ _ _) with (3 := H);
        [|exact Hno]. intros w0 c w1 Hs. apply (stepOk_unset _ _ _ Hs).
    + apply (rangeLoop_unset Offset "offset" _ _ _) with (3 := H);
        [|exact Hno]. intros w0 c w1 Hs. apply (stepOk_unset _ _ _ Hs).
    + apply (rangeLoop_unset Page "page" _ _ _) with (3 := H);
        [|exact Hno]. intros w0 c w1 Hs. apply (stepOk_unset _ _ _ Hs).
    + apply (rangeLoop_unset PageSize "pageSize" _ _ _) with (3 := H);
        [|exact Hno]. intros w0 c w1 Hs. apply (stepOk_unset _ _ _ Hs).
Qed.

(** The input ["limit=10&offset=5"], which has no [page] directive. *)
Lemma C5_witness :
  inIntRange (Limit (setOffset 5 (setLimit 10 initialWhereClause)))
  /\ Page (setOffset 5 (setLimit 10 initialWhereClause)) = 0.
Proof.
  pose proof (C5_pagination_fields_are_ints "limit=10&offset=5"
                (setOffset 5 (setLimit 10 initialWhereClause)) eq_refl)
    as [[Hl _] [_ [_ [Hp _]]]].
  split; [exact Hl | exact (Hp eq_refl)].
Defined.

(** C5, as the claim words it, fails at ["limit=-5"]: [Atoi] accepts a
    sign, and the compiler stores the negative integer. *)
Lemma C5_counterexample :
  BuildWhereClause "limit=-5" = Ok (setLimit (-5) initialWhereClause)
  /\ Limit (setLimit (-5) initialWhereClause) < 0.
Proof. split; [vm_compute; reflexivity | reflexivity]. Qed.

End PaginationFields.

(* ===================================================================== *)
(** ** Placeholders and arguments *)
(* ===================================================================== *)

Section Placeholders.
Import strings.

Lemma placeholders_app (a b : string) :
  placeholders (a ++ b) = (placeholders a + placeholders b)%nat.
Proof. apply countByte_app. Qed.

Lemma sumPlaceholders_app (l1 l2 : list string) :
  sumPlaceholders (l1 ++ l2)%list
  = (sumPlaceholders l1 + sumPlaceholders l2)%nat.
Proof. unfold sumPlaceholders. now rewrite map_app, list_sum_app. Qed.

Lemma placeholders_Join (parts : list string) (sep : string) :
  placeholders sep = O ->
  placeholders (Join parts sep) = sumPlaceholders parts.
Proof.
  intros Hsep. induction parts as [|e rest IH]; [reflexivity|].
  destruct rest as [|e' rest].
  - unfold sumPlaceholders. simpl. lia.
  - change (Join (e :: e' :: rest) sep)
      with (e ++ sep ++ Join (e' :: rest) sep).
    rewrite !placeholders_app, IH, Hsep.
    unfold sumPlaceholders. simpl. lia.
Qed.

Lemma placeholders_operatorOf (suffix : string) :
  placeholders (operatorOf suffix) = O.
Proof.
  unfold operatorOf.
  repeat (destruct (String.eqb suffix _); [reflexivity|]). reflexivity.
Qed.

(** A piece is dropped, or gives one fragment with one argument; the
    fragment has the placeholders of the field and one more. *)
Lemma processCondition_placeholders (piece : string) :
  processCondition piece = ("", [], None)
  \/ exists field op value,
       fieldOfPiece piece = Some field
       /\ placeholders op = O
       /\ processCondition piece
          = (field ++ " " ++ op ++ " ?", [AnyString value], None).
Proof.
  unfold processCondition, fieldOfPiece.
  destruct (SplitN piece "=" 2) as [|key [|value [|x l]]]; auto.
  right. eexists _, _, value. split; [reflexivity|]. split; [|reflexivity].
  destruct (SplitN key "__" 2) as [|f [|sfx [|y l]]]; try reflexivity.
  apply placeholders_operatorOf.
Qed.

Lemma fragment_not_empty (field rest : string) :
  String.eqb (field ++ " " ++ rest) "" = false.
Proof. now destruct field. Qed.

Lemma orLoop_placeholders (l parts parts' : list string)
    (args args' : list any) :
  forallb fieldWithoutPlaceholder l = true ->
  orLoop l parts args = Ok (parts', args') ->
  (sumPlaceholders parts' + length args
   = sumPlaceholders parts + length args')%nat.
Proof.
  revert parts args. induction l as [|p l IH]; intros parts args Hl H.
  - simpl in H. injection H as <- <-. lia.
  - simpl in Hl. apply andb_prop in Hl as [Hp Hl]. cbn [orLoop] in H.
    destruct (processCondition_placeholders p)
      as [E | (field & op & value & Hf & Hop & E)]; rewrite E in H.
    + simpl in H. now apply IH.
    + rewrite fragment_not_empty in H. cbn [negb] in H.
      apply IH in H; [|exact Hl].
      unfold fieldWithoutPlaceholder in Hp. rewrite Hf in Hp.
      apply Nat.eqb_eq in Hp.
      rewrite sumPlaceholders_app, length_app in H.
      change (sumPlaceholders [field ++ " " ++ op ++ " ?"])
        with (placeholders (field ++ " " ++ op ++ " ?") + 0)%nat in H.
      rewrite !placeholders_app, Hp, Hop in H.
      change (placeholders " ") with O in H.
      change (placeholders " ?") with 1%nat in H.
      cbn [length] in H. lia.
Qed.

Lemma orGroupOf_placeholders (l : list string) (w w' : WhereClause) :
  forallb fieldWithoutPlaceholder l = true ->
  placeholders (Query w) = length (Args w) ->
  orGroupOf l w = Ok w' ->
  placeholders (Query w') = length (Args w').
Proof.
  intros Hl Hw. unfold orGroupOf.
  destruct (orLoop_ok l [] (Args w)) as (parts & args & E). rewrite E.
  cbn [mbind outcome_bind].
  apply orLoop_placeholders in E; [|exact Hl].
  change (sumPlaceholders []) with O in E.
  destruct (0 <? length parts)%nat eqn:Hlen.
  - cbn [Query setArgs setQuery Args].
    destruct (negb (String.eqb (Query w) "")); intros [= <-];
      cbn [Query setArgs setQuery Args];
      rewrite !placeholders_app;
      change (placeholders (String "(" (Join parts " OR " ++ ")")))
        with (placeholders (Join parts " OR " ++ ")"));
      rewrite placeholders_app, placeholders_Join by reflexivity;
      change (placeholders ")") with O;
      try change (placeholders " AND ") with O; lia.
  - intros [= <-]. cbn [Query setArgs Args].
    apply Nat.ltb_ge in Hlen. destruct parts; [|simpl in Hlen; lia].
    change (sumPlaceholders []) with O in E. lia.
Qed.

Lemma stepOk_placeholders (w : WhereClause) (c : string) (w' : WhereClause) :
  forallb fieldWithoutPlaceholder (Split c "|") = true ->
  placeholders (Query w) = length (Args w) ->
  stepOk w c w' ->
  placeholders (Query w') = length (Args w').
Proof.
  intros Hc Hw [| | | | | | | | |query args Hb Hor]; try exact Hw.
  apply (orGroupOf_placeholders _ _ _ Hc Hw) in Hor. exact Hor.
Qed.

(** C2, as the code has it.  After a successful compilation of an input
    in which no field name contains a [?], the number of [?] in the
    predicate is the number of arguments. *)
Theorem C2_placeholders_match_arguments (s : string) (w : WhereClause) :
  BuildWhereClause s = Ok w ->
  fieldsWithoutPlaceholder s = true ->
  placeholders (Query w) = length (Args w).
Proof.
  intros H Hs. unfold BuildWhereClause in H.
  unfold fieldsWithoutPlaceholder in Hs. apply forallb_Forall in Hs.
  apply (rangeLoop_invariant
           (fun w => placeholders (Query w) = length (Args w))
           (fun c => forallb fieldWithoutPlaceholder (Split c "|") = true))
    with (2 := Hs) (4 := H); [|reflexivity].
  intros w0 c w1 Hc Hw0 E.
  exact (stepOk_placeholders _ _ _ Hc Hw0 (clauseStep_Ok _ _ _ E)).
Qed.

(** An input with a [?] and an [=] in values, a directive and a dropped piece. *)
Lemma C2_witness :
  placeholders "(a = ?) AND (b > ? OR c != ?)"
  = length [AnyString "1?"; AnyString "2"; AnyString "x=y"].
Proof.
  exact (C2_placeholders_match_arguments
           "a=1?&limit=3&b__gt=2|c__ne=x=y|junk"
           (setLimit 3
              (setArgs [AnyString "1?"; AnyString "2"; AnyString "x=y"]
                 (setQuery "(a = ?) AND (b > ? OR c != ?)"
                    initialWhereClause)))
           eq_refl eq_refl).
Defined.

(** C2, as the claim words it, fails at ["a?=1"]: the compilation
    succeeds, the field name is copied into the predicate with its [?],
    and the predicate has two [?] for one argument. *)
Lemma C2_counterexample :
  BuildWhereClause "a?=1"
  = Ok (setArgs [AnyString "1"] (setQuery "(a? = ?)" initialWhereClause))
  /\ placeholders "(a? = ?)" = 2%nat
  /\ length [AnyString "1"] = 1%nat.
Proof. split; [vm_compute; reflexivity | split; reflexivity]. Qed.

End Placeholders.


(* ===================================================================== *)
(** ** Clauses are compiled one after the other *)
(* ===================================================================== *)

Section Composition.
Import strings.

Lemma splitByte_not_nil (c : ascii) (s : string) : splitByte c s <> [].
Proof.
  induction s as [|x s IH]; simpl; [discriminate|].
  destruct (Ascii.eqb x c); [discriminate|].
  destruct (splitByte c s); discriminate.
Qed.

Lemma splitByte_none (c : ascii) (p : string) :
  countByte c p = O -> splitByte c p = [p].
Proof.
  induction p as [|x p IH]; simpl; intros H; [reflexivity|].
  destruct (Ascii.eqb x c); [discriminate|]. now rewrite IH.
Qed.

Lemma splitByte_app (c : ascii) (a b : string) :
  splitByte c (a ++ String c b) = (splitByte c a ++ splitByte c b)%list.
Proof.
  induction a as [|x a IH]; simpl.
  - now rewrite Ascii.eqb_refl.
  - destruct (Ascii.eqb x c); [now rewrite IH|].
    rewrite IH. pose proof (splitByte_not_nil c a).
    destruct (splitByte c a); [contradiction | reflexivity].
Qed.

Lemma splitLoop_splitByte (c : ascii) (r : nat) (s : string) :
  (len s <= r)%nat ->
  splitLoop (countLoop r s (String c "")) s (String c "") = splitByte c s.
Proof.
  revert s. induction r as [|r IH]; intros s Hlen.
  - destruct s; [reflexivity | unfold len in Hlen; simpl in Hlen; lia].
  - cbn [countLoop]. destruct (Index s (String c "")) as [i|] eqn:E.
    + cbn [splitLoop]. rewrite E.
      pose proof (Index_shorter s (String c "") i ltac:(discriminate) E) as Hs.
      pose proof (Index_byte_prefix c s i E) as Hp.
      pose proof (Index_Some s (String c "") i E) as Hcut.
      rewrite IH by lia.
      remember (sliceTo i s) as p. remember (sliceFrom (i + len (String c "")) s) as rest.
      rewrite Hcut. change (String c "" ++ rest) with (String c rest).
      rewrite splitByte_app, (splitByte_none c p Hp). reflexivity.
    + cbn [splitLoop]. symmetry. apply splitByte_none.
      now apply Index_byte_None.
Qed.

(** [Split] on a one-byte separator cuts at every occurrence of it. *)
Lemma Split_splitByte (c : ascii) (s : string) :
  Split s (String c "") = splitByte c s.
Proof.
  rewrite Split_splitLoop by discriminate. now apply splitLoop_splitByte.
Qed.

Lemma Split_app (c : ascii) (a b : string) :
  Split (a ++ String c b) (String c "")
  = (Split a (String c "") ++ Split b (String c ""))%list.
Proof. rewrite !Split_splitByte. apply splitByte_app. Qed.

Lemma Split_none (c : ascii) (p : string) :
  countByte c p = O -> Split p (String c "") = [p].
Proof. rewrite Split_splitByte. apply splitByte_none. Qed.

Lemma rangeLoop_app (l1 l2 : list string) (w : WhereClause) :
  rangeLoop (l1 ++ l2)%list w = (w' ← rangeLoop l1 w; rangeLoop l2 w').
Proof.
  revert w. induction l1 as [|c l1 IH]; intros w; [reflexivity|].
  cbn [rangeLoop app].
  destruct (clauseStep w c) as [w1|e|msg]; cbn [mbind outcome_bind];
    [apply IH | reflexivity | reflexivity].
Qed.

Lemma bind_Ok_r (m : outcome WhereClause) : (w ← m; Ok w) = m.
Proof. now destruct m. Qed.

(** X1. Compiling [a&b] is compiling [a] and then running the loop over
    the clauses of [b] from the descriptor reached: the clauses are taken
    from left to right, each from what the ones before it left, and an
    error in [a] is the result whatever [b] holds. *)
Theorem X1_compile_clauses_in_sequence (a b : string) :
  BuildWhereClause (a ++ "&" ++ b)
  = (w ← BuildWhereClause a; rangeLoop (Split b "&") w)
  /\ (forall e, BuildWhereClause a = Err e ->
                BuildWhereClause (a ++ "&" ++ b) = Err e).
Proof.
  assert (H : BuildWhereClause (a ++ "&" ++ b)
              = (w ← BuildWhereClause a; rangeLoop (Split b "&") w)).
  { unfold BuildWhereClause.
    change (a ++ "&" ++ b) with (a ++ String "&"%char b).
    now rewrite (Split_app "&"%char), rangeLoop_app. }
  split; [exact H|]. intros e He. now rewrite H, He.
Qed.

Lemma clauseStep_ignored (w : WhereClause) (m : string) :
  isIgnored m = true -> clauseStep w m = Ok w.
Proof.
  unfold isIgnored. intros H.
  destruct (String.eqb_spec m "") as [Hm|Hne]; [rewrite Hm; reflexivity|].
  cbn [orb] in H. unfold clauseStep, clauseBody.
  destruct (HasPrefix m "useData") eqn:HuD.
  - apply HasPrefix_true in HuD. rewrite HuD. reflexivity.
  - cbn [orb] in H. apply HasPrefix_true in H. rewrite H. reflexivity.
Qed.

(** X2. An empty clause or an ignore-marker ([useData...], [useCache...])
    changes nothing, wherever it stands: between two parts of the input,
    in front, or at the end (so a trailing [&] is harmless). *)
Theorem X2_ignored_clause_changes_nothing (a m b : string) :
  isIgnored m = true -> countByte "&"%char m = O ->
  BuildWhereClause (a ++ "&" ++ m ++ "&" ++ b) = BuildWhereClause (a ++ "&" ++ b)
  /\ BuildWhereClause (m ++ "&" ++ b) = BuildWhereClause b
  /\ BuildWhereClause (a ++ "&" ++ m) = BuildWhereClause a.
Proof.
  intros Hm Hamp.
  assert (Hloop : forall w l, rangeLoop (Split m "&" ++ l)%list w = rangeLoop l w).
  { intros w l. rewrite (Split_none "&"%char m Hamp).
    cbn [app rangeLoop]. now rewrite clauseStep_ignored. }
  unfold BuildWhereClause.
  change (a ++ "&" ++ m ++ "&" ++ b) with (a ++ String "&"%char (m ++ String "&"%char b)).
  change (a ++ "&" ++ b) with (a ++ String "&"%char b).
  change (m ++ "&" ++ b) with (m ++ String "&"%char b).
  change (a ++ "&" ++ m) with (a ++ String "&"%char m).
  rewrite !(Split_app "&"%char), !rangeLoop_app.
  split; [|split].
  - destruct (rangeLoop (Split a "&") _); cbn [mbind outcome_bind];
      [apply Hloop | reflexivity | reflexivity].
  - cbn [mbind outcome_bind]. rewrite <- (app_nil_r (Split m "&")) at 1.
    pose proof (Hloop (setAggregates (Some ∅) zeroWhereClause) []) as H0.
    rewrite H0. reflexivity.
  - destruct (rangeLoop (Split a "&") _) as [w1| |]; cbn [mbind outcome_bind];
      [|reflexivity|reflexivity].
    rewrite <- (app_nil_r (Split m "&")). now rewrite Hloop.
Qed.

(** A trailing [&], and a cache marker in the middle of a query. *)
Lemma X2_witness :
  BuildWhereClause ("a=1" ++ "&" ++ "useCache=true" ++ "&" ++ "b=2")
  = BuildWhereClause ("a=1" ++ "&" ++ "b=2")
  /\ BuildWhereClause ("a=1" ++ "&" ++ "") = BuildWhereClause "a=1".
Proof.
  split.
  - exact (proj1 (X2_ignored_clause_changes_nothing
                    "a=1" "useCache=true" "b=2" eq_refl eq_refl)).
  - exact (proj2 (proj2 (X2_ignored_clause_changes_nothing
                           "a=1" "" "b=2" eq_refl eq_refl))).
Defined.

End Composition.

(* ===================================================================== *)
(** ** The predicate and the arguments of an input *)
(* ===================================================================== *)

Section WholePredicate.
Import strings.

Lemma isAggregateDirective_form (c : string) :
  isAggregateDirective c = true ->
  exists fn fields, c = "agg__" ++ fn ++ "=" ++ fields
                    /\ countByte "="%char fn = O.
Proof.
  unfold isAggregateDirective. intros H. apply andb_prop in H as [Hp Hc].
  destruct (SplitN c "=" 2) as [|a [|fields [|x l]]] eqn:E;
    try (rewrite SplitN_2 in E by discriminate;
         destruct (Index c "=") as [i|] eqn:Ei; [discriminate E|];
         apply Index_byte_None in Ei; rewrite Ei in Hc; discriminate Hc).
  destruct (SplitN_byte_elim _ _ _ _ E) as [Hc' Ha].
  rewrite Hc' in Hp. apply HasPrefix_before_byte in Hp; [|reflexivity].
  apply HasPrefix_true in Hp. exists (sliceFrom (len "agg__") a), fields.
  split.
  - rewrite Hc'. rewrite Hp at 1. now rewrite app_assoc_s.
  - rewrite Hp in Ha. rewrite countByte_app in Ha. lia.
Qed.

Lemma clauseStep_not_aggregate (w : WhereClause) (c : string) :
  isAggregateDirective c = false -> clauseStep w c = clauseBody w c.
Proof.
  unfold isAggregateDirective, clauseStep. intros H.
  destruct (HasPrefix c "agg__"); [|reflexivity].
  cbn [andb] in H. apply negb_false_iff, Nat.eqb_eq in H.
  now rewrite (SplitN_byte_none "="%char c H).
Qed.

(** A clause taken by one of the earlier tests leaves the predicate and
    the arguments as they were. *)
Lemma clauseStep_earlier (w : WhereClause) (c : string) (w' : WhereClause) :
  earlierDirective c = true -> clauseStep w c = Ok w' ->
  Query w' = Query w /\ Args w' = Args w.
Proof.
  intros He H. destruct (isAggregateDirective c) eqn:Hagg.
  - destruct (isAggregateDirective_form c Hagg) as (fn & fields & Hc & Hfn).
    rewrite Hc, clauseStep_aggregate in H by exact Hfn.
    unfold assignAggregate in H. destruct (Aggregates w); [|discriminate].
    injection H as <-. split; reflexivity.
  - rewrite clauseStep_not_aggregate in H by exact Hagg.
    unfold earlierDirective in He. rewrite Hagg in He. cbn [orb] in He.
    unfold clauseBody in H.
    destruct (String.eqb c ""); [injection H as <-; split; reflexivity|].
    destruct (HasPrefix c "useData"); [injection H as <-; split; reflexivity|].
    destruct (HasPrefix c "useCache"); [injection H as <-; split; reflexivity|].
    destruct (HasPrefix c "with_"); [|discriminate He].
    rewrite preload_fold in H. injection H as <-. split; reflexivity.
Qed.

Lemma clauseStep_no_group (w : WhereClause) (c : string) (w' : WhereClause) :
  reachesOrGroup c = false -> clauseStep w c = Ok w' ->
  Query w' = Query w /\ Args w' = Args w.
Proof.
  unfold reachesOrGroup. intros Hr H. apply negb_false_iff in Hr.
  destruct (earlierDirective c) eqn:He; [now apply (clauseStep_earlier w c)|].
  cbn [orb] in Hr.
  destruct (clauseStep_Ok _ _ _ H); try (split; reflexivity). congruence.
Qed.

Lemma clauseStep_group (w : WhereClause) (c : string) :
  reachesOrGroup c = true -> clauseStep w c = orGroup w c.
Proof.
  unfold reachesOrGroup. intros Hr. apply negb_true_iff in Hr.
  apply orb_false_elim in Hr as [He Hb].
  now apply clauseStep_falls_through.
Qed.

(** The inner loop appends the fragments and the arguments of its pieces. *)
Lemma orLoop_explicit (l parts : list string) (args : list any) :
  orLoop l parts args
  = Ok ((parts ++ piecesFragments l)%list, (args ++ piecesArgs l)%list).
Proof.
  revert parts args. induction l as [|p l IH]; intros parts args.
  - unfold piecesFragments, piecesArgs. simpl. now rewrite !app_nil_r.
  - cbn [orLoop]. unfold piecesFragments, piecesArgs in *.
    cbn [map flat_map List.filter].
    destruct (processCondition_placeholders p)
      as [E | (field & op & value & _ & _ & E)]; rewrite E; cbn [fst snd].
    + cbn [String.eqb negb app]. apply IH.
    + rewrite fragment_not_empty. cbn [negb]. rewrite IH.
      now rewrite <- !app_assoc.
Qed.

Lemma orGroup_explicit (w : WhereClause) (c : string) :
  orGroup w c
  = Ok (if nonEmptyGroup (groupFragments c)
        then setQuery (appendGroup (Query w) (renderGroup (groupFragments c)))
               (setArgs (Args w ++ groupArgs c) w)
        else setArgs (Args w ++ groupArgs c) w).
Proof.
  unfold orGroup, orGroupOf. rewrite orLoop_explicit.
  cbn [mbind outcome_bind app].
  fold (groupFragments c). fold (groupArgs c).
  destruct (groupFragments c) as [|f fs]; [reflexivity|].
  cbn [length Nat.ltb Nat.leb nonEmptyGroup Query setArgs].
  unfold appendGroup, renderGroup.
  destruct (negb (String.eqb (Query w) "")); reflexivity.
Qed.

Lemma groupsOf_cons (c : string) (l : list string) :
  groupsOf (c :: l)
  = if reachesOrGroup c && nonEmptyGroup (groupFragments c)
    then renderGroup (groupFragments c) :: groupsOf l
    else groupsOf l.
Proof.
  unfold groupsOf. cbn [List.filter].
  destruct (reachesOrGroup c); [|reflexivity].
  cbn [map List.filter andb].
  destruct (nonEmptyGroup (groupFragments c)); reflexivity.
Qed.

Lemma rangeLoop_query (l : list string) (w w' : WhereClause) :
  rangeLoop l w = Ok w' ->
  Query w' = fold_left appendGroup (groupsOf l) (Query w)
  /\ Args w' = (Args w ++ flat_map groupArgs (List.filter reachesOrGroup l))%list.
Proof.
  revert w. induction l as [|c l IH]; intros w H.
  - injection H as <-. simpl. now rewrite app_nil_r.
  - cbn [rangeLoop] in H. destruct (clauseStep w c) as [w1| |] eqn:E;
      try discriminate. cbn [mbind outcome_bind] in H.
    apply IH in H as [HQ HA]. rewrite groupsOf_cons. cbn [List.filter].
    destruct (reachesOrGroup c) eqn:Hr.
    + rewrite clauseStep_group, orGroup_explicit in E by exact Hr.
      injection E as <-. cbn [andb flat_map].
      destruct (nonEmptyGroup (groupFragments c));
        cbn [Query Args setQuery setArgs fold_left] in *;
        rewrite HQ, HA; now rewrite <- app_assoc.
    + destruct (clauseStep_no_group _ _ _ Hr E) as [EQ EA].
      cbn [andb]. now rewrite HQ, HA, EQ, EA.
Qed.

Lemma Join_cons_app (a b sep : string) (l : list string) :
  Join ((a ++ sep ++ b) :: l) sep = a ++ sep ++ Join (b :: l) sep.
Proof.
  destruct l as [|x l]; [reflexivity|].
  change (Join ((a ++ sep ++ b) :: x :: l) sep)
    with ((a ++ sep ++ b) ++ sep ++ Join (x :: l) sep).
  change (Join (b :: x :: l) sep) with (b ++ sep ++ Join (x :: l) sep).
  now rewrite !app_assoc_s.
Qed.

Lemma fold_appendGroup_from (gs : list string) (g : string) :
  g <> "" ->
  fold_left appendGroup gs g = Join (g :: gs) " AND ".
Proof.
  revert g. induction gs as [|g' gs IH]; intros g Hg; [reflexivity|].
  cbn [fold_left]. unfold appendGroup at 2.
  destruct (String.eqb_spec g ""); [contradiction|]. cbn [negb].
  rewrite IH.
  - rewrite app_assoc_s. apply Join_cons_app.
  - destruct g; [contradiction | discriminate].
Qed.

Lemma fold_appendGroup (gs : list string) :
  Forall (fun g => g <> "") gs ->
  fold_left appendGroup gs "" = Join gs " AND ".
Proof.
  intros H. destruct H as [|g gs Hg _]; [reflexivity|].
  cbn [fold_left]. change (appendGroup "" g) with g.
  now apply fold_appendGroup_from.
Qed.

Lemma groupsOf_not_empty (l : list string) :
  Forall (fun g => g <> "") (groupsOf l).
Proof.
  unfold groupsOf. apply List.Forall_forall. intros g Hg.
  apply in_map_iff in Hg as (fr & <- & _). discriminate.
Qed.

(** X3. The predicate of a successful compilation is its non-empty
    OR-groups joined by [" AND "], each group the parenthesized fragments
    of its pieces joined by [" OR "]; the arguments are the values of
    those pieces, in the order of the input.  Directives and dropped
    pieces contribute to neither, and no connector is ever left in front
    or at the end. *)
Theorem X3_predicate_is_joined_groups (s : string) (w : WhereClause) :
  BuildWhereClause s = Ok w ->
  Query w = specQuery s /\ Args w = specArgs s.
Proof.
  intros H. unfold BuildWhereClause in H.
  apply rangeLoop_query in H as [HQ HA]. split; [|exact HA].
  rewrite HQ. apply fold_appendGroup, groupsOf_not_empty.
Qed.

(** Three groups, one of them with a dropped piece, among directives. *)
Lemma X3_witness :
  specQuery "a=1&limit=3&&b__gt=2|junk|c__ne=x&with_team&d__lte=4"
  = "(a = ?) AND (b > ? OR c != ?) AND (d <= ?)"
  /\ specArgs "a=1&limit=3&&b__gt=2|junk|c__ne=x&with_team&d__lte=4"
     = [AnyString "1"; AnyString "2"; AnyString "x"; AnyString "4"].
Proof.
  pose proof (X3_predicate_is_joined_groups
                "a=1&limit=3&&b__gt=2|junk|c__ne=x&with_team&d__lte=4"
                (setLimit 3
                   (setPreload ["team"]
                      (setArgs [AnyString "1"; AnyString "2"; AnyString "x";
                                AnyString "4"]
                         (setQuery "(a = ?) AND (b > ? OR c != ?) AND (d <= ?)"
                            initialWhereClause))))
                eq_refl) as [HQ HA].
  split; [symmetry; exact HQ | symmetry; exact HA].
Defined.

End WholePredicate.

Section NoFilter.
Import strings.

Lemma pieces_same_length (l : list string) :
  length (piecesFragments l) = length (piecesArgs l).
Proof.
  unfold piecesFragments, piecesArgs.
  induction l as [|p l IH]; [reflexivity|].
  cbn [map flat_map List.filter].
  destruct (processCondition_placeholders p)
    as [E | (field & op & value & _ & _ & E)]; rewrite E; cbn [fst snd].
  - exact IH.
  - rewrite fragment_not_empty. cbn [negb length app]. now rewrite IH.
Qed.

Lemma Join_empty (gs : list string) (sep : string) :
  Forall (fun g => g <> "") gs -> Join gs sep = "" -> gs = [].
Proof.
  intros H. destruct H as [|g gs Hg _]; [reflexivity|].
  intros E. exfalso. destruct gs as [|g' gs].
  - now apply Hg.
  - change (Join (g :: g' :: gs) sep) with (g ++ sep ++ Join (g' :: gs) sep) in E.
    destruct g; [now apply Hg | discriminate E].
Qed.

Lemma groupsOf_nil_iff (l : list string) :
  groupsOf l = [] <-> flat_map groupArgs (List.filter reachesOrGroup l) = [].
Proof.
  induction l as [|c l IH]; [split; reflexivity|].
  rewrite groupsOf_cons. cbn [List.filter].
  destruct (reachesOrGroup c); [|exact IH]. cbn [andb flat_map].
  pose proof (pieces_same_length (Split c "|")) as Hlen.
  fold (groupFragments c) in Hlen. fold (groupArgs c) in Hlen.
  destruct (groupFragments c) as [|f fs]; cbn [nonEmptyGroup].
  - destruct (groupArgs c); [exact IH | discriminate Hlen].
  - destruct (groupArgs c); [discriminate Hlen|].
    split; discriminate.
Qed.

(** X4. After a successful compilation the predicate is empty exactly
    when there is no argument: an input without any parsed condition
    gives the empty predicate and no argument, and any parsed condition
    gives a non-empty predicate and at least one argument. *)
Theorem X4_empty_predicate_iff_no_argument (s : string) (w : WhereClause) :
  BuildWhereClause s = Ok w -> (Query w = "" <-> Args w = []).
Proof.
  intros H. unfold BuildWhereClause in H.
  apply rangeLoop_query in H as [HQ HA].
  rewrite HQ, HA, fold_appendGroup by apply groupsOf_not_empty.
  cbn [Query Args setAggregates zeroWhereClause app].
  rewrite <- groupsOf_nil_iff. split.
  - apply Join_empty, groupsOf_not_empty.
  - now intros ->.
Qed.

(** The input ["limit=3&with_team&junk"] has no condition. *)
Lemma X4_witness :
  Query (setLimit 3 (setPreload ["team"] initialWhereClause)) = ""
  <-> Args (setLimit 3 (setPreload ["team"] initialWhereClause)) = [].
Proof.
  exact (X4_empty_predicate_iff_no_argument "limit=3&with_team&junk"
           (setLimit 3 (setPreload ["team"] initialWhereClause)) eq_refl).
Defined.

End NoFilter.

(* ===================================================================== *)
(** ** Preload names, sort keys, pagination and aggregates of an input *)
(* ===================================================================== *)

Section Directives2.
Import strings.

Lemma clauseStep_Preload (w : WhereClause) (c : string) (w' : WhereClause) :
  clauseStep w c = Ok w' ->
  Preload w' = (Preload w ++ if HasPrefix c "with_"
                             then Split (TrimPrefix c "with_") "|"
                             else [])%list.
Proof.
  intros H. destruct (HasPrefix c "with_") eqn:Hp.
  - unfold TrimPrefix. rewrite Hp. apply HasPrefix_true in Hp.
    rewrite Hp, clauseStep_preload in H. now injection H as <-.
  - rewrite app_nil_r.
    destruct (clauseStep_Ok _ _ _ H) as [| |rest Hc| | | | | | |];
      try reflexivity.
    rewrite Hc in Hp. discriminate Hp.
Qed.

(** X5. The preload list of a successful compilation is the names of the
    [with_] clauses of the input, clause after clause and, within a
    clause, in the order of the [|]-separated names; nothing else adds to
    it, and a name given twice is kept twice. *)
Theorem X5_preload_in_input_order (s : string) (w : WhereClause) :
  BuildWhereClause s = Ok w -> Preload w = specPreload s.
Proof.
  unfold BuildWhereClause, specPreload. intros H.
  assert (G : forall l w0 w1, rangeLoop l w0 = Ok w1 ->
              Preload w1
              = (Preload w0
                 ++ flat_map (fun c => if HasPrefix c "with_"
                                 then Split (TrimPrefix c "with_") "|"
                                 else []) l)%list).
  { induction l as [|c l IH]; intros w0 w1 H0.
    - injection H0 as <-. simpl. now rewrite app_nil_r.
    - cbn [rangeLoop] in H0. destruct (clauseStep w0 c) as [w2| |] eqn:E;
        try discriminate. cbn [mbind outcome_bind] in H0.
      apply IH in H0. apply clauseStep_Preload in E.
      rewrite H0, E. cbn [flat_map]. now rewrite <- app_assoc. }
  apply G in H. exact H.
Qed.

(** Two preload clauses around a condition, with a repeated name. *)
Lemma X5_witness :
  Preload (setPreload ["team"; "friends"; "team"]
             (setArgs [AnyString "1"] (setQuery "(a = ?)" initialWhereClause)))
  = specPreload "with_team|friends&a=1&with_team".
Proof.
  exact (X5_preload_in_input_order "with_team|friends&a=1&with_team"
           (setPreload ["team"; "friends"; "team"]
              (setArgs [AnyString "1"]
                 (setQuery "(a = ?)" initialWhereClause)))
           eq_refl).
Defined.

Lemma last_default (A : Type) (x d d' : A) (l : list A) :
  List.last (x :: l) d = List.last (x :: l) d'.
Proof.
  revert x. induction l as [|y l IH]; intros x; [reflexivity|].
  change (List.last (x :: y :: l) d) with (List.last (y :: l) d).
  change (List.last (x :: y :: l) d') with (List.last (y :: l) d').
  apply IH.
Qed.

Lemma last_cons (A : Type) (x d : A) (l : list A) :
  List.last (x :: l) d = List.last l x.
Proof.
  destruct l as [|y l]; [reflexivity|].
  change (List.last (x :: y :: l) d) with (List.last (y :: l) d).
  apply last_default.
Qed.

Lemma last_app (A : Type) (a b : list A) (d : A) :
  List.last (a ++ b)%list d = List.last b (List.last a d).
Proof.
  revert d. induction a as [|x a IH]; intros d; [reflexivity|].
  cbn [app]. now rewrite !last_cons, IH.
Qed.

Lemma directiveValues_cons (key c : string) (l : list string) :
  directiveValues key (c :: l)
  = (directiveValues key [c] ++ directiveValues key l)%list.
Proof. unfold directiveValues. cbn [flat_map]. now rewrite app_nil_r. Qed.

Lemma beginsWithDirectiveKey_prefix (c key : string) :
  beginsWithDirectiveKey c = false ->
  In key (sortKeys ++ paginationKeys)%list ->
  HasPrefix c (key ++ "=") = false.
Proof.
  unfold beginsWithDirectiveKey. intros H Hin.
  apply not_true_is_false. intros Hp.
  assert (existsb (fun key => HasPrefix c (key ++ "="))
            (sortKeys ++ paginationKeys)%list = true)
    by (apply existsb_exists; eauto).
  congruence.
Qed.

(** The six directive fields after one iteration: the value of the clause
    if it begins with the key, the field as it was otherwise. *)
Lemma stepOk_last (w : WhereClause) (c : string) (w' : WhereClause) :
  stepOk w c w' ->
  OrderByASC w'
    = List.last (directiveValues "orderByASC" [c]) (OrderByASC w)
  /\ OrderByDESC w'
    = List.last (directiveValues "orderByDESC" [c]) (OrderByDESC w)
  /\ Limit w'
    = List.last (map atoiValue (directiveValues "limit" [c])) (Limit w)
  /\ Offset w'
    = List.last (map atoiValue (directiveValues "offset" [c])) (Offset w)
  /\ Page w'
    = List.last (map atoiValue (directiveValues "page" [c])) (Page w)
  /\ PageSize w'
    = List.last (map atoiValue (directiveValues "pageSize" [c])) (PageSize w).
Proof.
  unfold directiveValues. cbn [flat_map].
  intros [fn fields m Hc _ _ | Hc | rest Hc | value Hc | value Hc
         | value n Hc Hn | value n Hc Hn | value n Hc Hn | value n Hc Hn
         | query args Hb _].
  - subst c. repeat split; reflexivity.
  - destruct Hc as [Hc|[Hc|Hc]];
      [subst c | apply HasPrefix_true in Hc; rewrite Hc ..];
      repeat split; reflexivity.
  - subst c. repeat split; reflexivity.
  - subst c. repeat split; reflexivity.
  - subst c. repeat split; reflexivity.
  - subst c. repeat split; try reflexivity.
    cbn. unfold atoiValue. now rewrite Hn.
  - subst c. repeat split; try reflexivity.
    cbn. unfold atoiValue. now rewrite Hn.
  - subst c. repeat split; try reflexivity.
    cbn. unfold atoiValue. now rewrite Hn.
  - subst c. repeat split; try reflexivity.
    cbn. unfold atoiValue. now rewrite Hn.
  - rewrite !(beginsWithDirectiveKey_prefix c _ Hb) by (simpl; auto 8).
    repeat split; reflexivity.
Qed.

Lemma rangeLoop_last (A : Type) (get : WhereClause -> A) (key : string)
    (conv : string -> A) :
  (forall w c w', stepOk w c w' ->
     get w' = List.last (map conv (directiveValues key [c])) (get w)) ->
  forall l w w', rangeLoop l w = Ok w' ->
     get w' = List.last (map conv (directiveValues key l)) (get w).
Proof.
  intros Hstep l. induction l as [|c l IH]; intros w w' H.
  - now injection H as <-.
  - cbn [rangeLoop] in H. destruct (clauseStep w c) as [w1| |] eqn:E;
      try discriminate. cbn [mbind outcome_bind] in H.
    rewrite directiveValues_cons, map_app, last_app.
    rewrite (IH _ _ H). f_equal. apply Hstep. now apply clauseStep_Ok.
Qed.

(** X6. Of several [orderByASC=] clauses the last one wins, and likewise
    for [orderByDESC=]: after a successful compilation each sort field is
    the text after the [=] of the last clause that begins with its key,
    and empty when there is none.  The two fields are independent. *)
Theorem X6_last_sort_directive_wins (s : string) (w : WhereClause) :
  BuildWhereClause s = Ok w ->
  OrderByASC w = List.last (directiveValues "orderByASC" (Split s "&")) ""
  /\ OrderByDESC w = List.last (directiveValues "orderByDESC" (Split s "&")) "".
Proof.
  unfold BuildWhereClause. intros H. split.
  - rewrite <- (map_id (directiveValues "orderByASC" (Split s "&"))).
    apply (rangeLoop_last string OrderByASC "orderByASC" (fun v => v))
      with (2 := H).
    intros w0 c w1 Hs. rewrite map_id. apply (stepOk_last _ _ _ Hs).
  - rewrite <- (map_id (directiveValues "orderByDESC" (Split s "&"))).
    apply (rangeLoop_last string OrderByDESC "orderByDESC" (fun v => v))
      with (2 := H).
    intros w0 c w1 Hs. rewrite map_id. apply (stepOk_last _ _ _ Hs).
Qed.

(** Two ascending keys and one descending key. *)
Lemma X6_witness :
  OrderByASC (setOrderByASC "age" (setOrderByDESC "name"
                (setOrderByASC "id" initialWhereClause))) = "age".
Proof.
  exact (proj1 (X6_last_sort_directive_wins
                  "orderByASC=id&orderByDESC=name&orderByASC=age"
                  (setOrderByASC "age" (setOrderByDESC "name"
                     (setOrderByASC "id" initialWhereClause)))
                  eq_refl)).
Defined.

(** X7. Of several clauses of one pagination key the last one wins: after
    a successful compilation [limit], [offset], [page] and [pageSize] are
    each the integer of the last clause that begins with their key, and
    zero when there is none. *)
Theorem X7_last_pagination_directive_wins (s : string) (w : WhereClause) :
  BuildWhereClause s = Ok w ->
  Limit w = List.last (map atoiValue (directiveValues "limit" (Split s "&"))) 0
  /\ Offset w
     = List.last (map atoiValue (directiveValues "offset" (Split s "&"))) 0
  /\ Page w = List.last (map atoiValue (directiveValues "page" (Split s "&"))) 0
  /\ PageSize w
     = List.last (map atoiValue (directiveValues "pageSize" (Split s "&"))) 0.
Proof.
  unfold BuildWhereClause. intros H. repeat split.
  - apply (rangeLoop_last Z Limit "limit" atoiValue) with (2 := H).
    intros w0 c w1 Hs. apply (stepOk_last _ _ _ Hs).
  - apply (rangeLoop_last Z Offset "offset" atoiValue) with (2 := H).
    intros w0 c w1 Hs. apply (stepOk_last _ _ _ Hs).
  - apply (rangeLoop_last Z Page "page" atoiValue) with (2 := H).
    intros w0 c w1 Hs. apply (stepOk_last _ _ _ Hs).
  - apply (rangeLoop_last Z PageSize "pageSize" atoiValue) with (2 := H).
    intros w0 c w1 Hs. apply (stepOk_last _ _ _ Hs).
Qed.

(** Two limits and a page. *)
Lemma X7_witness :
  Limit (setLimit 20 (setPage 2 (setLimit 10 initialWhereClause))) = 20.
Proof.
  exact (proj1 (X7_last_pagination_directive_wins "limit=10&page=2&limit=20"
                  (setLimit 20 (setPage 2 (setLimit 10 initialWhereClause)))
                  eq_refl)).
Defined.

End Directives2.

Section Aggregates2.
Import strings.

Lemma aggregateOf_form (fn fields : string) :
  countByte "="%char fn = O ->
  aggregateOf ("agg__" ++ fn ++ "=" ++ fields) = Some (fn, Split fields "|").
Proof.
  intros Hfn. unfold aggregateOf. rewrite isAggregateDirective_intro.
  change ("agg__" ++ fn ++ "=" ++ fields)
    with (("agg__" ++ fn) ++ String "="%char fields).
  rewrite SplitN_byte_intro by (rewrite countByte_app; simpl; lia).
  unfold TrimPrefix. now rewrite HasPrefix_app.
Qed.

Lemma aggregateEntries_cons (fn c : string) (l : list string) :
  aggregateEntries fn (c :: l)
  = (aggregateEntries fn [c] ++ aggregateEntries fn l)%list.
Proof. unfold aggregateEntries. cbn [flat_map]. now rewrite app_nil_r. Qed.

Lemma clauseStep_lookup (w : WhereClause) (c : string) (w' : WhereClause)
    (m : gmap string (list string)) :
  clauseStep w c = Ok w' -> Aggregates w = Some m ->
  exists m', Aggregates w' = Some m'
             /\ forall fn, m' !! fn
                  = List.last (map Some (aggregateEntries fn [c])) (m !! fn).
Proof.
  intros H Hm. destruct (isAggregateDirective c) eqn:Hagg.
  - destruct (isAggregateDirective_form c Hagg) as (f & fields & Hc & Hf).
    rewrite Hc, clauseStep_aggregate in H by exact Hf.
    unfold assignAggregate in H. rewrite Hm in H. injection H as <-.
    eexists. split; [reflexivity|]. intros fn.
    unfold aggregateEntries. cbn [flat_map].
    rewrite Hc, aggregateOf_form by exact Hf.
    destruct (String.eqb_spec f fn) as [->|Hne].
    + now rewrite lookup_insert_eq.
    + now rewrite lookup_insert_ne.
  - exists m.
    destruct (stepOk_Aggregates _ _ _ (clauseStep_Ok _ _ _ H)) as [E|[E _]];
      [|congruence].
    split; [congruence|]. intros fn.
    unfold aggregateEntries. cbn [flat_map]. unfold aggregateOf.
    now rewrite Hagg.
Qed.

(** X8. The aggregates map of a successful compilation holds, under a
    function name, the fields of the last aggregate directive of that
    name, and nothing under a name that no directive gives. *)
Theorem X8_aggregates_lookup (s : string) (w : WhereClause) (fn : string) :
  BuildWhereClause s = Ok w ->
  exists m, Aggregates w = Some m
            /\ m !! fn
               = List.last (map Some (aggregateEntries fn (Split s "&"))) None.
Proof.
  unfold BuildWhereClause. intros H.
  assert (G : forall l w0 w1 m0, rangeLoop l w0 = Ok w1 ->
              Aggregates w0 = Some m0 ->
              exists m1, Aggregates w1 = Some m1
                /\ m1 !! fn
                   = List.last (map Some (aggregateEntries fn l)) (m0 !! fn)).
  { induction l as [|c l IH]; intros w0 w1 m0 H0 Hm0.
    - injection H0 as <-. eauto.
    - cbn [rangeLoop] in H0. destruct (clauseStep w0 c) as [w2| |] eqn:E;
        try discriminate. cbn [mbind outcome_bind] in H0.
      destruct (clauseStep_lookup _ _ _ _ E Hm0) as (m2 & Hm2 & Hl2).
      destruct (IH _ _ _ H0 Hm2) as (m1 & Hm1 & Hl1).
      exists m1. split; [exact Hm1|].
      now rewrite aggregateEntries_cons, map_app, last_app, Hl1, Hl2. }
  destruct (G _ _ _ ∅ H eq_refl) as (m & Hm & Hl).
  exists m. split; [exact Hm|]. now rewrite Hl, lookup_empty.
Qed.

(** Two directives for [sum], one for [count], and a look-up of [sum]. *)
Lemma X8_witness :
  exists m, Aggregates (setAggregates
                          (Some (<["sum" := ["tax"; "fee"]]>
                                   (<["count" := ["id"]]>
                                      (<["sum" := ["amount"]]> ∅))))
                          zeroWhereClause) = Some m
            /\ m !! "sum" = Some ["tax"; "fee"].
Proof.
  apply (X8_aggregates_lookup
           "agg__sum=amount&agg__count=id&agg__sum=tax|fee"
           (setAggregates
              (Some (<["sum" := ["tax"; "fee"]]>
                       (<["count" := ["id"]]> (<["sum" := ["amount"]]> ∅))))
              zeroWhereClause)
           "sum").
  vm_compute. reflexivity.
Defined.

End Aggregates2.

(* ===================================================================== *)
(** ** The error of a failed compilation *)
(* ===================================================================== *)

Section FirstError.
Import strings.

(** The error of [Atoi] names [Atoi] and carries its whole input. *)
Lemma Atoi_error (s : string) (e : error) :
  strconv.Atoi s = inr e -> strconv.Func e = "Atoi" /\ strconv.Num e = s.
Proof.
  unfold strconv.Atoi.
  destruct ((0 <? len s)%nat && (len s <? 19)%nat).
  - destruct s as [|c rest]; [intros [= <-]; split; reflexivity|].
    destruct (len _ <? 1)%nat; [intros [= <-]; split; reflexivity|].
    destruct (strconv.atoiFastLoop _ 0); [discriminate|].
    intros [= <-]; split; reflexivity.
  - destruct (strconv.ParseInt s) as [n|nerr] eqn:E; [discriminate|].
    intros [= <-]. split; [reflexivity|]. cbn [strconv.Num].
    unfold strconv.ParseInt in E. destruct s as [|c rest]; [now injection E as <-|].
    destruct (strconv.ParseUint _) as [un [[|]|]];
      repeat match type of E with
        | (if ?b then _ else _) = _ => destruct b
        end; try discriminate; now injection E as <-.
Qed.

Lemma rangeLoop_first_error (l : list string) (w0 : WhereClause) (e : error) :
  rangeLoop l w0 = Err e ->
  exists before c after w,
    l = (before ++ c :: after)%list
    /\ rangeLoop before w0 = Ok w /\ clauseStep w c = Err e.
Proof.
  revert w0. induction l as [|c l IH]; intros w0 H; [discriminate|].
  cbn [rangeLoop] in H. destruct (clauseStep w0 c) as [w1|e1|] eqn:E;
    cbn [mbind outcome_bind] in H; [| |discriminate].
  - destruct (IH _ H) as (before & c' & after & w & Hl & Hb & Hc).
    exists (c :: before), c', after, w.
    split; [now rewrite Hl|]. split; [|exact Hc].
    cbn [rangeLoop]. rewrite E. exact Hb.
  - injection H as ->. exists [], c, l, w0. auto.
Qed.

(** X9. A failed compilation returns the error of [Atoi] for the value of
    the first rejected pagination directive: the clauses before it
    compile, the error names [Atoi] and carries that value as it was
    written, and the clauses after it are not looked at (the result is
    the same whatever follows). *)
Theorem X9_error_of_first_rejected_directive (s : string) (e : error) :
  BuildWhereClause s = Err e ->
  exists before key value after w,
    Split s "&" = (before ++ (key ++ "=" ++ value)%string :: after)%list
    /\ rangeLoop before initialWhereClause = Ok w
    /\ In key paginationKeys
    /\ strconv.Atoi value = inr e
    /\ strconv.Func e = "Atoi" /\ strconv.Num e = value
    /\ (forall others,
          rangeLoop (before ++ (key ++ "=" ++ value)%string :: others)%list
            initialWhereClause = Err e).
Proof.
  unfold BuildWhereClause. fold initialWhereClause. intros H.
  destruct (rangeLoop_first_error _ _ _ H)
    as (before & c & after & w & Hl & Hb & Hc).
  pose proof Hc as Hc'. apply clauseStep_Err in Hc'.
  destruct Hc' as (key & value & Hk & -> & Ha).
  destruct (Atoi_error _ _ Ha) as [Hf Hn].
  exists before, key, value, after, w.
  repeat split; try assumption.
  intros others. rewrite rangeLoop_app, Hb. cbn [mbind outcome_bind rangeLoop].
  now rewrite Hc.
Qed.

(** A good clause, a rejected [page], and a rejected [limit] after it. *)
Lemma X9_witness :
  exists before key value after w,
    Split "a=1&page=x&limit=y" "&"
    = (before ++ (key ++ "=" ++ value)%string :: after)%list
    /\ rangeLoop before initialWhereClause = Ok w
    /\ In key paginationKeys
    /\ strconv.Atoi value = inr (strconv.syntaxError "Atoi" "x")
    /\ strconv.Func (strconv.syntaxError "Atoi" "x") = "Atoi"
    /\ strconv.Num (strconv.syntaxError "Atoi" "x") = value
    /\ (forall others,
          rangeLoop (before ++ (key ++ "=" ++ value)%string :: others)%list
            initialWhereClause = Err (strconv.syntaxError "Atoi" "x")).
Proof.
  exact (X9_error_of_first_rejected_directive "a=1&page=x&limit=y"
           (strconv.syntaxError "Atoi" "x") eq_refl).
Defined.

End FirstError.

(* ===================================================================== *)
(** ** Chains of builder calls *)
(* ===================================================================== *)

Section BuilderChains.
Import strings.

Lemma call_comparison (w : WhereClause) (c : builderCall)
    (fragment : string) (values : list any) :
  comparisonOf c = Some (fragment, values) ->
  call w c = appendCondition w fragment values.
Proof. destruct c; intros [= <- <-]; reflexivity. Qed.

Lemma comparison_placeholders (c : builderCall) (fragment : string)
    (values : list any) :
  comparisonOf c = Some (fragment, values) -> wellFormedCall c = true ->
  placeholders fragment = length values.
Proof.
  destruct c; intros [= <- <-] Hw; cbn [wellFormedCall] in Hw;
    apply Nat.eqb_eq in Hw; unfold placeholders in *;
    repeat (rewrite ?countByte_app; simpl); rewrite ?Hw; reflexivity.
Qed.

Lemma call_placeholders (w : WhereClause) (c : builderCall) :
  wellFormedCall c = true ->
  placeholders (Query w) = length (Args w) ->
  placeholders (Query (call w c)) = length (Args (call w c)).
Proof.
  intros Hc Hw. destruct (comparisonOf c) as [[fragment values]|] eqn:E.
  - rewrite (call_comparison w c _ _ E).
    cbn [appendCondition Query Args setArgs setQuery].
    rewrite placeholders_app, length_app, Hw.
    now rewrite (comparison_placeholders c _ _ E Hc).
  - destruct c; try discriminate E; cbn [call];
      cbn [wellFormedCall] in Hc; try apply Nat.eqb_eq in Hc.
    + exact Hw.
    + cbn. exact Hc.
    + unfold AddAnd. destruct (negb (String.eqb (Query w) "")); [|exact Hw].
      cbn. rewrite placeholders_app, Hw. cbn. lia.
    + unfold AddOr. destruct (negb (String.eqb (Query w) "")); [|exact Hw].
      cbn. rewrite placeholders_app, Hw. cbn. lia.
    + cbn [And Query Args setArgs setQuery].
      rewrite !placeholders_app, length_app, Hw, Hc. cbn. lia.
    + cbn [Or Query Args setArgs setQuery].
      rewrite !placeholders_app, length_app, Hw, Hc. cbn. lia.
    + exact Hw.
    + exact Hw.
Qed.

(** X10. A chain of builder calls keeps the number of [?] of the
    predicate equal to the number of arguments, provided every call is
    well formed: [Where], [And] and [Or] get a query with one [?] for each
    argument, and the comparison helpers a field name without [?].  So a
    chain that starts from [NewWhereClause] always ends in a descriptor
    with as many placeholders as arguments. *)
Theorem X10_builder_keeps_placeholders
    (calls : list builderCall) (w : WhereClause) :
  forallb wellFormedCall calls = true ->
  placeholders (Query w) = length (Args w) ->
  placeholders (Query (chain calls w)) = length (Args (chain calls w)).
Proof.
  unfold chain. revert w. induction calls as [|c calls IH]; intros w Hc Hw.
  - exact Hw.
  - cbn [forallb] in Hc. apply andb_prop in Hc as [Hc Hcs].
    cbn [fold_left]. apply IH; [exact Hcs|]. now apply call_placeholders.
Qed.

(** The chain of the comment of [NewWhereClause]. *)
Lemma X10_witness :
  placeholders
    (Query (chain [CallWhere "status = ?" [AnyString "active"];
                   CallAnd "created_at > ?" [AnyString "2021-01-01"];
                   CallLike "title" "%example%";
                   CallIsNot "archived" (AnyBool true)] NewWhereClause))
  = length
      (Args (chain [CallWhere "status = ?" [AnyString "active"];
                    CallAnd "created_at > ?" [AnyString "2021-01-01"];
                    CallLike "title" "%example%";
                    CallIsNot "archived" (AnyBool true)] NewWhereClause)).
Proof.
  exact (X10_builder_keeps_placeholders
           [CallWhere "status = ?" [AnyString "active"];
            CallAnd "created_at > ?" [AnyString "2021-01-01"];
            CallLike "title" "%example%";
            CallIsNot "archived" (AnyBool true)] NewWhereClause
           eq_refl eq_refl).
Defined.

Lemma comparison_not_empty (c : builderCall) :
  isComparison c = true -> fragmentOf c <> "".
Proof.
  unfold isComparison, fragmentOf.
  destruct c; cbn [comparisonOf]; try discriminate; intros _;
    try (destruct field; discriminate).
Qed.

Lemma call_AddAnd_comparison (w : WhereClause) (c : builderCall) :
  isComparison c = true ->
  call (call w CallAddAnd) c
  = setArgs (Args w ++ valuesOf c)
      (setQuery (appendGroup (Query w) (fragmentOf c)) w).
Proof.
  unfold isComparison, fragmentOf, valuesOf. intros Hc.
  destruct (comparisonOf c) as [[fragment values]|] eqn:E; [|discriminate].
  rewrite (call_comparison _ c _ _ E). cbn [call].
  unfold AddAnd, appendGroup, appendCondition.
  destruct (negb (String.eqb (Query w) "")); now destruct w.
Qed.

Lemma chain_withAddAnd (cs : list builderCall) (w : WhereClause) :
  forallb isComparison cs = true ->
  Query (chain (withAddAnd cs) w)
    = fold_left appendGroup (map fragmentOf cs) (Query w)
  /\ Args (chain (withAddAnd cs) w) = (Args w ++ flat_map valuesOf cs)%list.
Proof.
  unfold chain, withAddAnd. revert w.
  induction cs as [|c cs IH]; intros w Hcs.
  - simpl. now rewrite app_nil_r.
  - cbn [forallb] in Hcs. apply andb_prop in Hcs as [Hc Hcs].
    cbn [flat_map app fold_left map].
    rewrite (call_AddAnd_comparison w c Hc).
    destruct (IH (setArgs (Args w ++ valuesOf c)
                    (setQuery (appendGroup (Query w) (fragmentOf c)) w)) Hcs)
      as [HQ HA].
    rewrite HQ, HA. cbn [Query Args setArgs setQuery].
    now rewrite <- app_assoc.
Qed.

Lemma chain_comparisons (cs : list builderCall) (w : WhereClause) :
  forallb isComparison cs = true ->
  Query (chain cs w) = Query w ++ String.concat "" (map fragmentOf cs).
Proof.
  unfold chain. revert w. induction cs as [|c cs IH]; intros w Hcs.
  - simpl. now rewrite app_nil_r_s.
  - cbn [forallb] in Hcs. apply andb_prop in Hcs as [Hc Hcs'].
    cbn [fold_left map]. rewrite (IH _ Hcs').
    unfold isComparison in Hc. unfold fragmentOf at 2.
    destruct (comparisonOf c) as [[fragment values]|] eqn:E; [|discriminate].
    rewrite (call_comparison _ c _ _ E).
    cbn [appendCondition Query setArgs setQuery].
    rewrite app_assoc_s. f_equal.
    destruct (map fragmentOf cs) as [|f fs] eqn:Em.
    + simpl. now rewrite app_nil_r_s.
    + reflexivity.
Qed.

(** X11. Comparison helpers called one after the other, each after an
    [AddAnd], build from the fresh descriptor the conjunction of their
    fragments: the fragments joined by [" AND "], with no connector in
    front, and the values in the order of the calls.  (Without the
    [AddAnd] calls the fragments are only concatenated.) *)
Theorem X11_AddAnd_chain_is_conjunction (cs : list builderCall) :
  forallb isComparison cs = true ->
  Query (chain (withAddAnd cs) NewWhereClause)
    = Join (map fragmentOf cs) " AND "
  /\ Args (chain (withAddAnd cs) NewWhereClause) = flat_map valuesOf cs
  /\ Query (chain cs NewWhereClause) = String.concat "" (map fragmentOf cs).
Proof.
  intros Hcs. destruct (chain_withAddAnd cs NewWhereClause Hcs) as [HQ HA].
  split; [|split; [exact HA|]].
  - rewrite HQ. apply fold_appendGroup.
    apply List.Forall_forall. intros f Hf.
    apply in_map_iff in Hf as (c & <- & Hin).
    apply comparison_not_empty.
    rewrite forallb_forall in Hcs. now apply Hcs.
  - apply (chain_comparisons cs NewWhereClause Hcs).
Qed.

(** The comparisons of the comment of [NewWhereClause], with [AddAnd]. *)
Lemma X11_witness :
  Query (chain (withAddAnd [CallEqual "status" (AnyString "active");
                            CallGreaterThan "created_at" (AnyString "2021");
                            CallLike "title" "%example%";
                            CallIsNot "archived" (AnyBool true)])
           NewWhereClause)
  = "status = ? AND created_at > ? AND title LIKE ? AND archived IS NOT ?".
Proof.
  exact (proj1 (X11_AddAnd_chain_is_conjunction
                  [CallEqual "status" (AnyString "active");
                   CallGreaterThan "created_at" (AnyString "2021");
                   CallLike "title" "%example%";
                   CallIsNot "archived" (AnyBool true)] eq_refl)).
Defined.

(** X12. No builder method sets the sort fields, the page, the page size
    or the aggregates map, and only [AddPreload] adds to the preload
    list: a chain of calls leaves the first five as they were, and
    appends the names of its [AddPreload] calls in order.  A descriptor
    built from [NewWhereClause] therefore has no sort key, page zero and
    a nil aggregates map. *)
Theorem X12_builder_frame (calls : list builderCall) (w : WhereClause) :
  OrderByASC (chain calls w) = OrderByASC w
  /\ OrderByDESC (chain calls w) = OrderByDESC w
  /\ Page (chain calls w) = Page w
  /\ PageSize (chain calls w) = PageSize w
  /\ Aggregates (chain calls w) = Aggregates w
  /\ Preload (chain calls w) = (Preload w ++ preloadsOf calls)%list.
Proof.
  unfold chain, preloadsOf. revert w.
  induction calls as [|c calls IH]; intros w.
  - simpl. rewrite app_nil_r. repeat split; reflexivity.
  - cbn [fold_left flat_map].
    destruct (IH (call w c)) as (H1 & H2 & H3 & H4 & H5 & H6).
    rewrite H1, H2, H3, H4, H5, H6.
    destruct c; cbn [call];
      try (unfold AddAnd; destruct (negb (String.eqb (Query w) "")));
      try (unfold AddOr; destruct (negb (String.eqb (Query w) "")));
      cbn; rewrite <- ?app_assoc; repeat split; reflexivity.
Qed.

End BuilderChains.

(* ===================================================================== *)
(** ** [base.go]: pages and type names *)
(* ===================================================================== *)

Section Pages.
Import strings.

Lemma wrapInt_small (z : Z) : - 2 ^ 63 <= z < 2 ^ 63 -> base.wrapInt z = z.
Proof. intros H. unfold base.wrapInt. rewrite Z.mod_small; lia. Qed.

(** X13. For a count of rows that is not negative and a positive page
    size, [GetAllPaginated] never panics and reports the number of pages
    as the count divided by the page size, rounded up; it asks the
    database for [pageSize] rows from the offset [(page - 1) * pageSize];
    [HasNext] holds exactly when rows remain after the page
    ([page * pageSize < count]) and [HasPrev] exactly when the page is
    beyond the first. *)
Theorem X13_page_arithmetic (dbError : Type) (find : Z -> Z -> option dbError)
    (count page pageSize : Z) :
  0 <= count < 2 ^ 63 -> 0 < pageSize < 2 ^ 63 ->
  1 <= page -> (page - 1) * pageSize < 2 ^ 63 ->
  exists r,
    base.GetAllPaginated (inl count) find page pageSize
    = Ok (Some r, find ((page - 1) * pageSize) pageSize)
    /\ base.Count r = count /\ base.Page r = page
    /\ count <= base.TotalPages r * pageSize < count + pageSize
    /\ (base.HasNext r = true <-> page * pageSize < count)
    /\ (base.HasPrev r = true <-> 1 < page).
Proof.
  intros Hc Hp Hpage Hoff. unfold base.GetAllPaginated.
  destruct (Z.eqb_spec pageSize 0) as [|_]; [lia|].
  rewrite Z.quot_div_nonneg, Z.rem_mod_nonneg by lia.
  pose proof (Z.div_mod count pageSize ltac:(lia)) as Hdm.
  pose proof (Z.mod_pos_bound count pageSize ltac:(lia)) as Hmod.
  assert (Hq : 0 <= count / pageSize <= count).
  { split; [apply Z.div_pos; lia|]. apply Z.div_le_upper_bound; nia. }
  assert (Hpg : page - 1 < 2 ^ 63) by nia.
  rewrite (wrapInt_small (count / pageSize)) by lia.
  rewrite (wrapInt_small (page - 1)) by lia.
  rewrite (wrapInt_small ((page - 1) * pageSize)) by nia.
  eexists. split; [reflexivity|]. cbn [base.Count base.Page base.TotalPages
                                        base.HasNext base.HasPrev].
  split; [reflexivity|]. split; [reflexivity|].
  destruct (Z.ltb_spec 0 (count mod pageSize)) as [Hr|Hr].
  - rewrite wrapInt_small by lia. split; [nia|].
    split; [rewrite Z.ltb_lt; nia | rewrite Z.ltb_lt; lia].
  - assert (count mod pageSize = 0) by lia. split; [nia|].
    split; [rewrite Z.ltb_lt; nia | rewrite Z.ltb_lt; lia].
Qed.

(** Forty-one rows in pages of ten: page 5 is the last one. *)
Lemma X13_witness :
  exists r,
    base.GetAllPaginated (inl 41) (fun _ _ => @None unit) 5 10
    = Ok (Some r, None)
    /\ base.Count r = 41 /\ base.Page r = 5
    /\ 41 <= base.TotalPages r * 10 < 41 + 10
    /\ (base.HasNext r = true <-> 5 * 10 < 41)
    /\ (base.HasPrev r = true <-> 1 < 5).
Proof.
  apply (X13_page_arithmetic unit (fun _ _ => None) 41 5 10); lia.
Defined.

Lemma nth_error_last (A : Type) (l : list A) (x : A) :
  nth_error (l ++ [x])%list (length (l ++ [x])%list - 1) = Some x.
Proof.
  rewrite length_app. cbn [length].
  replace (length l + 1 - 1)%nat with (length l) by lia.
  induction l as [|y l IH]; [reflexivity | exact IH].
Qed.

Lemma Split_last_piece (s : string) :
  exists l p, Split s "." = (l ++ [p])%list /\ countByte "."%char p = O.
Proof.
  pose proof (Split_byte_pieces "."%char s) as H.
  change (String "."%char "") with "." in H.
  destruct (Split s ".") as [|x l] eqn:E using rev_ind.
  - exfalso. change "." with (String "."%char "") in E.
    rewrite Split_splitByte in E. now apply splitByte_not_nil in E.
  - exists l, x. split; [reflexivity|].
    apply List.Forall_forall with (x := x) in H; [exact H|].
    apply in_or_app. right. now left.
Qed.



End Pages.

(* ===================================================================== *)
(** ** [base.go]: the transactions of the bulk operations *)
(* ===================================================================== *)

Section BulkFacts.
Import base.
Variables (M E : Type).
Variable validate : M -> option E.
Variable dbResult : list (dbEvent M) -> option E.

Lemma commit_cases (tx : list (dbEvent M)) :
  snd (commit dbResult tx) = (tx ++ [EvCommit])%list
  /\ (length (fst (commit dbResult tx)) <= 1)%nat
  /\ (fst (commit dbResult tx) = [] <->
      dbResult (tx ++ [EvCommit])%list = None).
Proof.
  unfold commit. destruct (dbResult (tx ++ [EvCommit])%list); cbn.
  - repeat split; try lia; discriminate.
  - repeat split; lia.
Qed.

Lemma creates_do_not_end (models : list M) :
  forallb (fun ev : dbEvent M => negb (endsTransaction ev))
          (map EvCreate models) = true.
Proof. induction models; [reflexivity | exact IHmodels]. Qed.

Lemma firstn_do_not_end (k : nat) (l : list (dbEvent M)) :
  forallb (fun ev => negb (endsTransaction ev)) l = true ->
  forallb (fun ev => negb (endsTransaction ev)) (firstn k l) = true.
Proof.
  revert k. induction l as [|x l IH]; intros k H.
  - now destruct k.
  - destruct k; [reflexivity|]. cbn [firstn forallb] in *.
    apply andb_prop in H as [Hx Hl]. now rewrite Hx, IH.
Qed.

Lemma bulkCreateLoop_cases (models : list M) (tx0 : list (dbEvent M)) :
  (Forall (fun m => validate m = None) models
   /\ bulkCreateLoop validate dbResult models tx0
      = commit dbResult (tx0 ++ map EvCreate models)%list)
  \/ (exists k m e,
        nth_error models k = Some m
        /\ dbResult (tx0 ++ map EvCreate (firstn (S k) models))%list = Some e
        /\ bulkCreateLoop validate dbResult models tx0
           = ([NewResponse (OtherError e) (RModel m)],
              (tx0 ++ map EvCreate (firstn (S k) models) ++ [EvRollback])%list))
  \/ (exists k m e,
        nth_error models k = Some m /\ validate m = Some e
        /\ bulkCreateLoop validate dbResult models tx0
           = ([NewResponse (OtherError e) (RModel m)],
              (tx0 ++ map EvCreate (firstn k models))%list)).
Proof.
  revert tx0. induction models as [|model rest IH]; intros tx0.
  - left. split; [constructor|]. cbn. now rewrite app_nil_r.
  - cbn [bulkCreateLoop]. destruct (validate model) as [e|] eqn:Hv.
    { right. right. exists O, model, e. cbn. now rewrite app_nil_r. }
    destruct (dbResult (tx0 ++ [EvCreate model])%list) as [e|] eqn:Hd.
    { right. left. exists O, model, e. simpl.
      rewrite Hd. repeat split. now rewrite <- app_assoc. }
    destruct (IH (tx0 ++ [EvCreate model])%list)
      as [[Hall Hr] | [(k & m & e & Hk & He & Hr) | (k & m & e & Hk & He & Hr)]];
      rewrite <- !app_assoc in *; cbn [app] in *.
    + left. split; [now constructor | exact Hr].
    + right. left. exists (S k), m, e. simpl.
      repeat split; assumption.
    + right. right. exists (S k), m, e. simpl.
      repeat split; assumption.
Qed.


Lemma updates_do_not_end (w : WhereClause) (models : list M)
    (uuids : list string) :
  forallb (fun ev : dbEvent M => negb (endsTransaction ev))
          (updatesOf w models uuids) = true.
Proof.
  unfold updatesOf. induction (combine models uuids) as [|x l IH];
    [reflexivity | exact IH].
Qed.

Lemma bulkUpdateLoop_cases (w : WhereClause) (models : list M) :
  forall (pre us : list string) (tx0 : list (dbEvent M)),
    length us = length models ->
    exists k final rs,
      (k <= length models)%nat
      /\ bulkUpdateLoop dbResult (length pre) models (pre ++ us)%list
           (Some w) tx0
         = Ok (rs, (tx0 ++ firstn k (updatesOf w models us) ++ [final])%list)
      /\ endsTransaction final = true
      /\ (length rs <= 1)%nat
      /\ (final = EvCommit -> k = length models)
      /\ (rs = [] -> final = EvCommit).
Proof.
  induction models as [|model rest IH]; intros pre us tx0 Hlen.
  - destruct us; [|discriminate]. exists O, EvCommit.
    destruct (commit_cases tx0) as (Hs & Hl & _).
    exists (fst (commit dbResult tx0)).
    split; [lia|]. split.
    + cbn [bulkUpdateLoop]. rewrite firstn_O. cbn [app]. f_equal.
      rewrite <- Hs. now destruct (commit dbResult tx0).
    + repeat split; auto.
  - destruct us as [|u us]; [discriminate|]. injection Hlen as Hlen.
    cbn [bulkUpdateLoop].
    assert (Hn : nth_error (pre ++ u :: us)%list (length pre) = Some u).
    { rewrite nth_error_app2 by lia. now rewrite Nat.sub_diag. }
    rewrite Hn.
    destruct (dbResult (tx0 ++ [EvUpdate model u (Query w) (Args w)])%list)
      as [e|] eqn:Hd.
    + exists 1%nat, EvRollback, [NewResponse (OtherError e) (RModel model)].
      split; [cbn; lia|]. split.
      * unfold updatesOf. cbn [combine map fst snd].
        rewrite firstn_cons, firstn_O. now rewrite <- !app_assoc.
      * repeat split; try discriminate. cbn. lia.
    + specialize (IH (pre ++ [u])%list us
                    (tx0 ++ [EvUpdate model u (Query w) (Args w)])%list Hlen).
      destruct IH as (k & final & rs & Hk & Hr & Hf & Hl & Hc & He).
      rewrite length_app in Hr. cbn [length] in Hr.
      rewrite Nat.add_1_r, <- !app_assoc in Hr. cbn [app] in Hr.
      exists (S k), final, rs. split; [cbn; lia|]. split.
      * rewrite Hr. unfold updatesOf. cbn [combine map fst snd].
        now rewrite firstn_cons.
      * repeat split; auto. intros Hfin. cbn. f_equal. auto.
Qed.


Lemma deletes_do_not_end (w : WhereClause) (entity : string)
    (uuids : list string) :
  forallb (fun ev : dbEvent M => negb (endsTransaction ev))
          (deletesOf w entity uuids) = true.
Proof. induction uuids as [|u us IH]; [reflexivity | exact IH]. Qed.

Lemma bulkDeleteLoop_cases (modelType : option rtype) (entity : string)
    (w : WhereClause) (uuids : list string) :
  GetType modelType = Ok entity ->
  forall tx0 : list (dbEvent M),
    exists k final rs,
      (k <= length uuids)%nat
      /\ bulkDeleteLoop dbResult modelType uuids w tx0
         = Ok (rs, (tx0 ++ firstn k (deletesOf w entity uuids) ++ [final])%list)
      /\ endsTransaction final = true
      /\ (length rs <= 1)%nat
      /\ (final = EvCommit -> k = length uuids)
      /\ (rs = [] -> final = EvCommit).
Proof.
  intros Ht. induction uuids as [|u us IH]; intros tx0.
  - exists O, EvCommit. destruct (commit_cases tx0) as (Hs & Hl & _).
    exists (fst (commit dbResult tx0)). split; [lia|]. split.
    + cbn [bulkDeleteLoop]. rewrite firstn_O. cbn [app]. f_equal.
      rewrite <- Hs. now destruct (commit dbResult tx0).
    + repeat split; auto.
  - cbn [bulkDeleteLoop]. rewrite Ht.
    destruct (dbResult (tx0 ++ [EvDelete entity u (Query w) (Args w)])%list)
      as [e|] eqn:Hd.
    + exists 1%nat, EvRollback, [NewResponse (OtherError e) (REntity entity)].
      split; [cbn; lia|]. split.
      * unfold deletesOf. cbn [map]. rewrite firstn_cons, firstn_O.
        now rewrite <- !app_assoc.
      * repeat split; try discriminate. cbn. lia.
    + destruct (IH (tx0 ++ [EvDelete entity u (Query w) (Args w)])%list)
        as (k & final & rs & Hk & Hr & Hf & Hl & Hc & He).
      rewrite <- !app_assoc in Hr. cbn [app] in Hr.
      exists (S k), final, rs. split; [cbn; lia|]. split.
      * rewrite Hr. unfold deletesOf. cbn [map]. now rewrite firstn_cons.
      * repeat split; auto. intros Hfin. cbn. f_equal. auto.
Qed.


End BulkFacts.


